(** * go-aspects: the fact merger, the call-graph analyzers and the
      fact-file naming function, embedded from the sources.

    - [Merger]    : merge_json_deps (mergeJSONFiles and its main).
    - [CallGraph] : the VTA analyzers (vta_analyzer_bazel.go, the workspace
                    wrapper and the analysis script it generates).
    - [Naming]    : _compute_package_version_name (utils.bzl).            *)

From Stdlib Require Import Ascii String.
From stdpp Require Import gmap strings list fin_maps.

Open Scope string_scope.
Open Scope nat_scope.
Open Scope list_scope.

(* ===================================================================== *)
(** ** The fact merger                                                    *)
(* ===================================================================== *)

Module Merger.

(** A [json.RawMessage] that came out of a successful [json.Unmarshal] is a
    syntactically valid JSON text; it is represented by the value it denotes.
    Object members are kept as written (order and repeated keys included). *)
#[warnings="-register-all"]
Inductive json : Type :=
| JNull
| JBool (b : bool)
| JNumber (literal : string)
| JString (s : string)
| JArray (items : list json)
| JObject (members : list (string * json)).

(** [json.Unmarshal(nodeData, &node)] for [node : map[string]interface{}]:
    an object fills the map (a repeated key keeps its last value), [null]
    leaves the nil map and reports no error, anything else is an error. *)
Definition unmarshal_object (nodeData : json) : option (gmap string json) :=
  match nodeData with
  | JNull => Some ∅
  | JObject members => Some (foldl (λ m kv, <[kv.1 := kv.2]> m) ∅ members)
  | _ => None
  end.

(** [v.(string)] on the interface value read from the map; a missing key
    reads as the nil interface. *)
Definition assert_string (v : option json) : string * bool :=
  match v with
  | Some (JString s) => (s, true)
  | _ => ("", false)
  end.

(** The two variables the loops of [mergeJSONFiles] update. *)
Record merge_state : Type := MergeState {
  seenLabels : gmap string bool;
  mergedNodes : list json
}.

Definition initial_state : merge_state :=
  {| seenLabels := ∅; mergedNodes := [] |}.

Definition append_node (st : merge_state) (nodeData : json) : merge_state :=
  {| seenLabels := seenLabels st; mergedNodes := mergedNodes st ++ [nodeData] |}.

(** Body of [for _, nodeData := range jsonData.Nodes]. *)
Definition process_node (st : merge_state) (nodeData : json) : merge_state :=
  match unmarshal_object nodeData with
  | None => append_node st nodeData
  | Some node =>
      let '(originalLabel, hasLabel) := assert_string (node !! "original_label") in
      if hasLabel && bool_decide (originalLabel ≠ "") then
        if negb (default false (seenLabels st !! originalLabel)) then
          {| seenLabels := <[originalLabel := true]> (seenLabels st);
             mergedNodes := mergedNodes st ++ [nodeData] |}
        else st
      else append_node st nodeData
  end.

(** What the merger can observe of a path that exists: [ReadFile] fails, or
    [json.Unmarshal] into [JSONData] fails, or it yields the [Nodes] list. *)
Inductive file : Type :=
| Unreadable
| Malformed
| Doc (nodes : list json).

(** The file system as the merger sees it.  A path with no entry does not
    exist.  [mkdir_ok p] tells whether [os.MkdirAll(filepath.Dir(p))]
    succeeds and [write_ok p] whether [ioutil.WriteFile(p, ...)] does. *)
Record World : Type := MkWorld {
  files : gmap string file;
  mkdir_ok : string → bool;
  write_ok : string → bool
}.

Inductive merge_error : Type :=
| ErrCreateDir
| ErrMarshal
| ErrWrite.

(** Lines written to standard error. *)
Inductive diag : Type :=
| UsageLine
| WarnRead (inputFile : string)
| WarnParse (inputFile : string)
| ErrorLine (e : merge_error).

(** Body of [for _, inputFile := range inputFiles]. *)
Definition process_file (w : World) (acc : merge_state * list diag)
    (inputFile : string) : merge_state * list diag :=
  match files w !! inputFile with
  | None => acc
  | Some Unreadable => (acc.1, acc.2 ++ [WarnRead inputFile])
  | Some Malformed => (acc.1, acc.2 ++ [WarnParse inputFile])
  | Some (Doc nodes) => (foldl process_node acc.1 nodes, acc.2)
  end.

(** [json.Marshal(JSONData{Nodes: mergedNodes})]: every element is a valid
    raw message, so the encoder has nothing to reject; reading the bytes
    back yields the same node values. *)
Definition marshal (nodes : list json) : option file := Some (Doc nodes).

Definition mergeJSONFiles (w : World) (outputFile : string)
    (inputFiles : list string) : option merge_error * World * list diag :=
  let '(st, log) := foldl (process_file w) (initial_state, []) inputFiles in
  if negb (mkdir_ok w outputFile) then (Some ErrCreateDir, w, log)
  else
    match marshal (mergedNodes st) with
    | None => (Some ErrMarshal, w, log)
    | Some resultData =>
        if negb (write_ok w outputFile) then (Some ErrWrite, w, log)
        else (None,
              {| files := <[outputFile := resultData]> (files w);
                 mkdir_ok := mkdir_ok w; write_ok := write_ok w |},
              log)
    end.

(** [main]: [osArgs] is [os.Args], program name included.  The result is
    the exit status, the file system afterwards and standard error. *)
Definition main (w : World) (osArgs : list string) : nat * World * list diag :=
  match osArgs with
  | _ :: outputFile :: inputFiles =>
      match mergeJSONFiles w outputFile inputFiles with
      | (Some e, w', log) => (1, w', log ++ [ErrorLine e])
      | (None, w', log) => (0, w', log)
      end
  | _ => (1, w, [UsageLine])
  end.

(** *** Vocabulary for the statements *)

(** The non-empty [original_label] of a record, when it has one. *)
Definition label_of (nodeData : json) : option string :=
  match unmarshal_object nodeData with
  | None => None
  | Some node =>
      match assert_string (node !! "original_label") with
      | (l, true) => if bool_decide (l ≠ "") then Some l else None
      | (_, false) => None
      end
  end.

Definition has_label (l : string) (nodeData : json) : Prop :=
  label_of nodeData = Some l.

Definition unlabeled (nodeData : json) : Prop :=
  label_of nodeData = None.

#[global] Instance has_label_dec l nodeData : Decision (has_label l nodeData) :=
  decide (label_of nodeData = Some l).

#[global] Instance unlabeled_dec nodeData : Decision (unlabeled nodeData) :=
  decide (label_of nodeData = None).

(** The labels marked in [seenLabels] are those of the records kept so far. *)
Definition seen_inv (st : merge_state) : Prop :=
  ∀ l, default false (seenLabels st !! l) = true ↔ l ∈ omap label_of (mergedNodes st).

(** What the node loop leaves in [mergedNodes] when started afresh. *)
Definition merged (nodes : list json) : list json :=
  mergedNodes (foldl process_node initial_state nodes).

(** The records the merger gets to see, in traversal order. *)
Definition nodes_of (w : World) (inputFile : string) : list json :=
  match files w !! inputFile with
  | Some (Doc nodes) => nodes
  | _ => []
  end.

Definition input_nodes (w : World) (inputFiles : list string) : list json :=
  inputFiles ≫= nodes_of w.

(** Warnings owed to the inputs, one per unreadable or malformed file. *)
Definition warning_of (w : World) (inputFile : string) : list diag :=
  match files w !! inputFile with
  | Some Unreadable => [WarnRead inputFile]
  | Some Malformed => [WarnParse inputFile]
  | _ => []
  end.

(** *** Sample inputs *)

Definition always (b : bool) : string → bool := λ _, b.

Definition record_A : json :=
  JObject [("original_label", JString "//x:a"); ("version", JString "1.0")].

Definition record_B : json :=
  JObject [("original_label", JString "//x:a"); ("version", JString "2.0")].

Definition record_plain : json := JObject [("name", JString "anonymous")].

Definition record_blank : json :=
  JObject [("original_label", JString ""); ("name", JString "blank")].

Definition world_AB : World :=
  {| files := {[ "A.json" := Doc [record_A; record_plain; JNumber "7"];
                 "B.json" := Doc [record_B; record_plain; record_blank; JNumber "7"];
                 "C.json" := Malformed;
                 "D.json" := Unreadable ]};
     mkdir_ok := always true;
     write_ok := always true |}.

End Merger.

(* ===================================================================== *)
(** ** The call-graph analyzers                                           *)
(* ===================================================================== *)

Module CallGraph.

(** *** What the analyzers read of the libraries' data *)

(** go/types: a parameter or result, by [Name()] and [Type().String()]. *)
Record Var : Type := MkVar { var_Name : string; var_Type : string }.

(** go/types: [Params()] and [Results()] may be nil tuples. *)
Record Signature : Type := MkSignature {
  sig_Params : option (list Var);
  sig_Results : option (list Var)
}.

(** go/ssa: [fn.Name()], [fn.Pkg] (nil, or with [Pkg.Pkg] nil, or with a
    path) and [fn.Signature]. *)
Record Function : Type := MkFunction {
  fn_Name : string;
  fn_Pkg : option (option string);
  fn_Signature : option Signature
}.

(** go/callgraph: an edge by its [Callee] node (nil, or with [Func] nil, or
    with a function); a node by its [Out] edges, nil entries included. *)
Record Edge : Type := MkEdge { edge_Callee : option (option Function) }.
Record Node : Type := MkNode { node_Out : list (option Edge) }.

(** [vtaCG.Nodes], a map keyed by function pointers, in the order one
    [range] loop visits it.  Two entries may carry equal data: they stand
    for distinct pointers. *)
Definition Graph : Type := list (option Function * option Node).

(** go/packages: [len(pkg.Syntax)] is the length of [pkg_Syntax], and
    [pkg.Types] is nil or a type-checked package. *)
Record Package : Type := MkPackage {
  pkg_PkgPath : string;
  pkg_Syntax : list string;
  pkg_Types : option string
}.

(** The packages file. *)
Record PackageEntry : Type := MkEntry {
  ID : string;
  Name : string;
  PkgPath : string;
  GoFiles : list string
}.

Record Response : Type := MkResponse {
  Roots : list string;
  Packages : list PackageEntry
}.

(** The surroundings of one run.
    - [read_packages_file p]: [None] when [os.ReadFile] fails, [Some None]
      when [json.Unmarshal] fails, else the parsed response;
    - [packages_Load patterns]: the packages and whether [err != nil];
    - [findGoFiles]: [None] when the walk fails;
    - [vta_call_graph pkgs]: the nodes left after [ssautil.AllPackages],
      [prog.Build], [cha.CallGraph], [vta.CallGraph] and the two
      [DeleteSyntheticNodes], all of golang.org/x/tools;
    - [mkdir_ok], [write_ok]: whether [os.MkdirAll(filepath.Dir(p))] and
      [os.WriteFile(p, ...)] succeed;
    - for the workspace wrappers: whether the script file can be written,
      whether [filepath.Abs] succeeds, and whether [go run] builds and
      starts the script. *)
Record Host : Type := MkHost {
  read_packages_file : string → option (option Response);
  packages_Load : list string → list Package * bool;
  findGoFiles : option (list string);
  vta_call_graph : list Package → Graph;
  mkdir_ok : string → bool;
  write_ok : string → bool;
  script_written : bool;
  abs_ok : bool;
  go_run_starts : bool
}.

(** How a run ends: [log.Fatalf] (exit status 1, nothing written), or a
    return from [main] after [writeResult] wrote [result]. *)
Inductive outcome (R : Type) : Type :=
| Fatal
| Done (outputFile : string) (result : R).
Arguments Fatal {R}.
Arguments Done {R} outputFile result.

Definition exit_status {R} (o : outcome R) : nat :=
  match o with
  | Fatal => 1
  | Done _ _ => 0
  end.

Definition writeResult {R} (h : Host) (outputFile : string) (result : R) : outcome R :=
  if negb (mkdir_ok h outputFile) then Fatal
  else if negb (write_ok h outputFile) then Fatal
  else Done outputFile result.

(** [pkg.ID != "" && (HasPrefix(pkg.ID, "@@//") || HasPrefix(pkg.ID, "@//"))] *)
Definition is_source_id (id : string) : bool :=
  bool_decide (id ≠ "") && (String.prefix "@@//" id || String.prefix "@//" id).

Definition hasSyntax (pkg : Package) : bool := 0 <? length (pkg_Syntax pkg).
Definition hasTypes (pkg : Package) : bool :=
  match pkg_Types pkg with Some _ => true | None => false end.

(** [fmt.Sprintf("%s.%s", fn.Pkg.Pkg.Path(), fn.Name())], or the bare name
    when the package linkage is missing. *)
Definition func_name (fn : Function) : string :=
  match fn_Pkg fn with
  | Some (Some path) => path +:+ "." +:+ fn_Name fn
  | _ => fn_Name fn
  end.

(** The callee of an edge the loops do not skip. *)
Definition retained_callee (edge : option Edge) : option Function :=
  match edge with
  | Some {| edge_Callee := Some (Some callee) |} => Some callee
  | _ => None
  end.

(** *** Vocabulary for the statements *)

(** The callee names one caller contributes: one per retained out-edge, in
    edge order. *)
Definition callee_names (out : list (option Edge)) : list string :=
  func_name <$> omap retained_callee out.

(** A graph entry as a caller: its qualified name and its callee names,
    when both pointers are set and at least one out-edge is retained. *)
Definition entry_caller (entry : option Function * option Node)
    : option (string * list string) :=
  match entry with
  | (Some fn, Some node) =>
      match callee_names (node_Out node) with
      | [] => None
      | callees => Some (func_name fn, callees)
      end
  | _ => None
  end.

Definition callers_with_edges (g : Graph) : list (string * list string) :=
  omap entry_caller g.

(** The retained (caller, callee) pairs of an entry, and of a graph. *)
Definition entry_edges (entry : option Function * option Node)
    : list (Function * Function) :=
  match entry with
  | (Some fn, Some node) => (λ callee, (fn, callee)) <$> omap retained_callee (node_Out node)
  | _ => []
  end.

Definition retained_edges (g : Graph) : list (Function * Function) :=
  g ≫= entry_edges.

(** **** vta_analyzer_bazel.go *)
Module Bazel.

Record CallGraphResult : Type := MkResult {
  PackageID : string;
  PackageName : string;
  ImportPath : string;
  CallGraph : gmap string (list string);
  TotalFuncs : nat;
  TotalEdges : nat;
  Algorithm : string
}.

(** The target loop: the first source package with Go files. *)
Fixpoint find_target (pkgs : list PackageEntry) : string * string * string :=
  match pkgs with
  | [] => ("", "", "")
  | pkg :: rest =>
      if is_source_id (ID pkg) && (0 <? length (GoFiles pkg))
      then (PkgPath pkg, ID pkg, Name pkg)
      else find_target rest
  end.

(** The loading strategies: the current directory, then the Go files
    found under it. *)
Definition load_packages (h : Host) : list Package :=
  let '(pkgs, loadErr) := packages_Load h ["."] in
  if loadErr || (length pkgs =? 0) then
    match findGoFiles h with
    | None => pkgs
    | Some goFiles =>
        if 0 <? length goFiles
        then (packages_Load h (map (λ f, "file=" +:+ f) goFiles)).1
        else pkgs
    end
  else pkgs.

Definition filterValidPackages (pkgs : list Package) : list Package :=
  foldl (λ validPackages pkg,
           if hasSyntax pkg || hasTypes pkg then validPackages ++ [pkg]
           else validPackages) [] pkgs.

(** Body of [for _, edge := range node.Out]. *)
Definition edge_step (acc : list string * nat) (edge : option Edge) : list string * nat :=
  match retained_callee edge with
  | Some callee => (acc.1 ++ [func_name callee], S acc.2)
  | None => acc
  end.

(** Body of [for fn, node := range vtaCG.Nodes]. *)
Definition node_step (acc : gmap string (list string) * nat)
    (entry : option Function * option Node) : gmap string (list string) * nat :=
  match entry with
  | (Some fn, Some node) =>
      let funcName := func_name fn in
      let '(callees, totalEdges) := foldl edge_step ([], acc.2) (node_Out node) in
      (if 0 <? length callees then <[funcName := callees]> acc.1 else acc.1,
       totalEdges)
  | _ => acc
  end.

Definition empty_result (targetID targetName targetPackage : string) : CallGraphResult :=
  {| PackageID := targetID; PackageName := targetName; ImportPath := targetPackage;
     CallGraph := ∅; TotalFuncs := 0; TotalEdges := 0; Algorithm := "VTA" |}.

Definition graph_result (targetID targetName targetPackage : string) (g : Graph)
    : CallGraphResult :=
  let '(callGraph, totalEdges) := foldl node_step (∅, 0) g in
  {| PackageID := targetID; PackageName := targetName; ImportPath := targetPackage;
     CallGraph := callGraph; TotalFuncs := size callGraph; TotalEdges := totalEdges;
     Algorithm := "VTA" |}.

Definition main (h : Host) (osArgs : list string) : outcome CallGraphResult :=
  match osArgs with
  | [_; packagesFile; outputFile] =>
      match read_packages_file h packagesFile with
      | None | Some None => Fatal
      | Some (Some response) =>
          let '(targetPackage, targetID, targetName) := find_target (Packages response) in
          let targetPackage := if bool_decide (targetPackage = "") then "./..." else targetPackage in
          let pkgs := load_packages h in
          if length pkgs =? 0 then
            writeResult h outputFile (empty_result targetID targetName targetPackage)
          else
            let validPackages := filterValidPackages pkgs in
            if length validPackages =? 0 then
              writeResult h outputFile (empty_result targetID targetName targetPackage)
            else
              writeResult h outputFile
                (graph_result targetID targetName targetPackage
                   (vta_call_graph h validPackages))
      end
  | _ => Fatal
  end.

End Bazel.

(** **** vta_analyzer_simple.go: the wrapper and the script it runs *)
Module Workspace.

(** The fields [Name], [Package], [Signature], [Parameters], [Returns]. *)
Record FunctionInfo : Type := MkInfo {
  fi_Name : string;
  fi_Package : string;
  fi_Signature : string;
  fi_Parameters : list string;
  fi_Returns : list string
}.

Record CallEdge : Type := MkCallEdge { Caller : FunctionInfo; Callee : FunctionInfo }.

Record CallGraphResult : Type := MkResult {
  PackageID : string;
  PackageName : string;
  ImportPath : string;
  CallGraph : gmap string (list string);
  Functions : gmap string FunctionInfo;
  CallEdges : list CallEdge;
  TotalFuncs : nat;
  TotalEdges : nat;
  Algorithm : string
}.

(** [strings.Join(elems, sep)] *)
Fixpoint join (elems : list string) (sep : string) : string :=
  match elems with
  | [] => ""
  | [e] => e
  | e :: rest => e +:+ sep +:+ join rest sep
  end.

(** One pass of the parameter loop or of the result loop. *)
Definition render_var (v : Var) : string :=
  if bool_decide (var_Name v ≠ "") then var_Name v +:+ " " +:+ var_Type v
  else var_Type v.

Definition render_tuple (t : option (list Var)) : list string :=
  match t with
  | Some vars => map render_var vars
  | None => []
  end.

Definition extractFunctionInfo (fn : option Function) : FunctionInfo :=
  match fn with
  | None =>
      {| fi_Name := "unknown"; fi_Package := "unknown"; fi_Signature := "unknown()";
         fi_Parameters := []; fi_Returns := [] |}
  | Some fn =>
      let '(funcName, pkgPath) :=
        match fn_Pkg fn with
        | Some (Some path) => (path +:+ "." +:+ fn_Name fn, path)
        | _ => (fn_Name fn, "builtin")
        end in
      match fn_Signature fn with
      | Some sig =>
          let parameters := render_tuple (sig_Params sig) in
          let returns := render_tuple (sig_Results sig) in
          let paramStr := join parameters ", " in
          let returnStr :=
            match returns with
            | [] => ""
            | [r] => r
            | _ => "(" +:+ join returns ", " +:+ ")"
            end in
          {| fi_Name := funcName; fi_Package := pkgPath;
             fi_Signature :=
               if bool_decide (returnStr ≠ "")
               then fn_Name fn +:+ "(" +:+ paramStr +:+ ") " +:+ returnStr
               else fn_Name fn +:+ "(" +:+ paramStr +:+ ")";
             fi_Parameters := parameters; fi_Returns := returns |}
      | None =>
          {| fi_Name := funcName; fi_Package := pkgPath;
             fi_Signature := fn_Name fn +:+ "()";
             fi_Parameters := []; fi_Returns := [] |}
      end
  end.

(** The variables of the extraction loops. *)
Record extraction : Type := MkExtraction {
  callGraph : gmap string (list string);
  functions : gmap string FunctionInfo;
  callEdges : list CallEdge;
  totalEdges : nat
}.

(** Body of [for _, edge := range node.Out]; [callees] is threaded along. *)
Definition edge_step (callerInfo : FunctionInfo) (acc : extraction * list string)
    (edge : option Edge) : extraction * list string :=
  match retained_callee edge with
  | Some callee =>
      let calleeInfo := extractFunctionInfo (Some callee) in
      ({| callGraph := callGraph acc.1;
          functions := <[fi_Name calleeInfo := calleeInfo]> (functions acc.1);
          callEdges := callEdges acc.1 ++ [{| Caller := callerInfo; Callee := calleeInfo |}];
          totalEdges := S (totalEdges acc.1) |},
       acc.2 ++ [fi_Name calleeInfo])
  | None => acc
  end.

(** Body of [for fn, node := range vtaCG.Nodes]. *)
Definition node_step (acc : extraction) (entry : option Function * option Node)
    : extraction :=
  match entry with
  | (Some fn, Some node) =>
      let callerInfo := extractFunctionInfo (Some fn) in
      let acc :=
        {| callGraph := callGraph acc;
           functions := <[fi_Name callerInfo := callerInfo]> (functions acc);
           callEdges := callEdges acc; totalEdges := totalEdges acc |} in
      let '(acc, callees) := foldl (edge_step callerInfo) (acc, []) (node_Out node) in
      if 0 <? length callees
      then {| callGraph := <[fi_Name callerInfo := callees]> (callGraph acc);
              functions := functions acc; callEdges := callEdges acc;
              totalEdges := totalEdges acc |}
      else acc
  | _ => acc
  end.

Definition empty_result (targetID targetName targetPkgPath : string) : CallGraphResult :=
  {| PackageID := targetID; PackageName := targetName; ImportPath := targetPkgPath;
     CallGraph := ∅; Functions := ∅; CallEdges := [];
     TotalFuncs := 0; TotalEdges := 0; Algorithm := "VTA" |}.

Definition graph_result (targetID targetName targetPkgPath : string) (g : Graph)
    : CallGraphResult :=
  let x := foldl node_step
             {| callGraph := ∅; functions := ∅; callEdges := []; totalEdges := 0 |} g in
  {| PackageID := targetID; PackageName := targetName; ImportPath := targetPkgPath;
     CallGraph := callGraph x; Functions := functions x; CallEdges := callEdges x;
     TotalFuncs := size (callGraph x); TotalEdges := totalEdges x;
     Algorithm := "VTA" |}.

(** Vocabulary: the record of a function, the [functions] entries a graph
    entry writes (caller first, then one per retained out-edge), and the
    [callEdges] element of a retained edge. *)
Definition info_of (fn : Function) : FunctionInfo := extractFunctionInfo (Some fn).

Definition keyed (fn : Function) : string * FunctionInfo :=
  (fi_Name (info_of fn), info_of fn).

Definition entry_functions (entry : option Function * option Node)
    : list (string * FunctionInfo) :=
  match entry with
  | (Some fn, Some node) => keyed fn :: (keyed <$> omap retained_callee (node_Out node))
  | _ => []
  end.

Definition edge_of (e : Function * Function) : CallEdge :=
  {| Caller := info_of e.1; Callee := info_of e.2 |}.

(** The script: it ends with [os.Exit(1)] or prints one result. *)
Inductive script_outcome : Type :=
| ScriptExit1
| ScriptPrinted (result : CallGraphResult).

Definition package_paths (response : Response) : list string :=
  let packagePaths :=
    foldl (λ paths pkg,
             if is_source_id (ID pkg) then paths ++ ["./" +:+ PkgPath pkg] else paths)
          [] (Packages response) in
  if length packagePaths =? 0 then ["."] else packagePaths.

Definition valid_packages (pkgs : list Package) : list Package :=
  foldl (λ validPackages pkg,
           if hasTypes pkg && hasSyntax pkg then validPackages ++ [pkg]
           else validPackages) [] pkgs.

(** [targetID], [targetName] and [targetPkgPath] are spliced into the
    script as string literals; they are taken to hold no quote and no
    backslash, as labels and import paths do. *)
Definition script_main (h : Host) (packagesFile targetPkgPath targetID targetName : string)
    : script_outcome :=
  match read_packages_file h packagesFile with
  | None | Some None => ScriptExit1
  | Some (Some response) =>
      let '(pkgs, err) := packages_Load h (package_paths response) in
      if err then ScriptExit1
      else
        let validPackages := valid_packages pkgs in
        if length validPackages =? 0
        then ScriptPrinted (empty_result targetID targetName targetPkgPath)
        else ScriptPrinted (graph_result targetID targetName targetPkgPath
                              (vta_call_graph h validPackages))
  end.

(** [cmd.Output()] fails when [go run] cannot start the script or the
    script exits with a non-zero status; the printed result decodes to
    itself.  Every failure path returns the same counts; the maps that one
    path allocates and the others leave nil are both the empty map here. *)
Definition runWorkspaceVTAAnalysis (h : Host)
    (packagesFile targetPkgPath targetID targetName : string) : CallGraphResult :=
  if negb (script_written h) then empty_result targetID targetName targetPkgPath
  else if negb (abs_ok h) then empty_result targetID targetName targetPkgPath
  else if negb (go_run_starts h) then empty_result targetID targetName targetPkgPath
  else
    match script_main h packagesFile targetPkgPath targetID targetName with
    | ScriptExit1 => empty_result targetID targetName targetPkgPath
    | ScriptPrinted result => result
    end.

(** The target loop: the first source package. *)
Fixpoint find_target (pkgs : list PackageEntry) : string * string * string :=
  match pkgs with
  | [] => ("", "", "")
  | pkg :: rest =>
      if is_source_id (ID pkg) then (ID pkg, Name pkg, PkgPath pkg)
      else find_target rest
  end.

Definition main (h : Host) (osArgs : list string) : outcome CallGraphResult :=
  match osArgs with
  | [_; packagesFile; outputFile] =>
      match read_packages_file h packagesFile with
      | None | Some None => Fatal
      | Some (Some response) =>
          let '(targetID, targetName, targetPkgPath) := find_target (Packages response) in
          let targetPkgPath :=
            if bool_decide (targetPkgPath = "") then "unknown" else targetPkgPath in
          writeResult h outputFile
            (runWorkspaceVTAAnalysis h packagesFile targetPkgPath targetID targetName)
      end
  | _ => Fatal
  end.

End Workspace.

(** **** The earlier workspace wrapper (same result type and extraction
    loops as vta_analyzer_bazel.go; its script loads two fixed packages) *)
Module Legacy.

Definition script_main (h : Host) (targetPkgPath targetID targetName : string)
    : option Bazel.CallGraphResult :=
  let '(pkgs, err) := packages_Load h ["./src/main"; "./src/utils"] in
  if err then None
  else
    let validPackages := Workspace.valid_packages pkgs in
    if length validPackages =? 0
    then Some (Bazel.empty_result targetID targetName targetPkgPath)
    else Some (Bazel.graph_result targetID targetName targetPkgPath
                 (vta_call_graph h validPackages)).

Definition runWorkspaceVTAAnalysis (h : Host)
    (targetPkgPath targetID targetName : string) : Bazel.CallGraphResult :=
  if negb (script_written h) then Bazel.empty_result targetID targetName targetPkgPath
  else if negb (go_run_starts h) then Bazel.empty_result targetID targetName targetPkgPath
  else
    match script_main h targetPkgPath targetID targetName with
    | None => Bazel.empty_result targetID targetName targetPkgPath
    | Some result => result
    end.

Definition main (h : Host) (osArgs : list string) : outcome Bazel.CallGraphResult :=
  match osArgs with
  | [_; packagesFile; outputFile] =>
      match read_packages_file h packagesFile with
      | None | Some None => Fatal
      | Some (Some response) =>
          let '(targetID, targetName, targetPkgPath) :=
            Workspace.find_target (Packages response) in
          let targetPkgPath :=
            if bool_decide (targetPkgPath = "") then "unknown" else targetPkgPath in
          writeResult h outputFile
            (runWorkspaceVTAAnalysis h targetPkgPath targetID targetName)
      end
  | _ => Fatal
  end.

End Legacy.

(** *** Sample inputs *)
Module Samples.

Definition sig_none : Signature := {| sig_Params := None; sig_Results := None |}.

Definition in_app (name : string) : Function :=
  {| fn_Name := name; fn_Pkg := Some (Some "example.com/app");
     fn_Signature := Some sig_none |}.

Definition call (callee : Function) : option Edge :=
  Some {| edge_Callee := Some (Some callee) |}.

(** [main] calls [helper] at two call sites. *)
Definition graph_two_sites : Graph :=
  [ (Some (in_app "main"),
     Some {| node_Out := [call (in_app "helper"); call (in_app "helper")] |});
    (Some (in_app "helper"), Some {| node_Out := [] |}) ].

(** The methods [Close] of two types, [File] and [Conn], of one package:
    [fn.Name()] is [Close] for both. *)
Definition graph_two_methods : Graph :=
  [ (Some (in_app "Close"), Some {| node_Out := [call (in_app "flush")] |});
    (Some (in_app "Close"), Some {| node_Out := [call (in_app "shutdown")] |});
    (Some (in_app "flush"), Some {| node_Out := [] |});
    (Some (in_app "shutdown"), Some {| node_Out := [] |}) ].

(** One function that calls itself. *)
Definition graph_recursive : Graph :=
  [ (Some (in_app "f"), Some {| node_Out := [call (in_app "f")] |}) ].

Definition pkg_full : Package :=
  {| pkg_PkgPath := "example.com/app"; pkg_Syntax := ["main.go"]; pkg_Types := Some "app" |}.
Definition pkg_types_only : Package :=
  {| pkg_PkgPath := "fmt"; pkg_Syntax := []; pkg_Types := Some "fmt" |}.
Definition pkg_syntax_only : Package :=
  {| pkg_PkgPath := "example.com/broken"; pkg_Syntax := ["broken.go"]; pkg_Types := None |}.
Definition pkg_bare : Package :=
  {| pkg_PkgPath := "example.com/none"; pkg_Syntax := []; pkg_Types := None |}.

Definition response_empty : Response :=
  {| Roots := ["//x:main"]; Packages := [] |}.

Definition response_main : Response :=
  {| Roots := ["@//src/main:main"];
     Packages := [ {| ID := "@//src/main:main"; Name := "main";
                      PkgPath := "src/main"; GoFiles := ["main.go"] |} ] |}.

(** A host whose loader returns [pkgs] for every pattern and whose
    analysis returns [g]. *)
Definition host_with (response : Response) (pkgs : list Package) (g : Graph) : Host :=
  {| read_packages_file := λ _, Some (Some response);
     packages_Load := λ _, (pkgs, false);
     findGoFiles := Some [];
     vta_call_graph := λ _, g;
     mkdir_ok := λ _, true;
     write_ok := λ _, true;
     script_written := true;
     abs_ok := true;
     go_run_starts := true |}.

(** No package of the loader has syntax or types. *)
Definition host_bare : Host := host_with response_empty [pkg_bare] graph_recursive.

(** Packages of all four kinds. *)
Definition host_mixed : Host :=
  host_with response_main [pkg_full; pkg_types_only; pkg_syntax_only; pkg_bare]
    graph_recursive.

End Samples.

End CallGraph.

(* ===================================================================== *)
(** ** Fact-file naming (utils.bzl)                                       *)
(* ===================================================================== *)

Module Naming.

(** [s.replace(old, new)] of Starlark for a non-empty [old]: the
    occurrences of [old] are found left to right and do not overlap.
    [skip] counts the characters of a matched occurrence still to be
    passed over. *)
Fixpoint replace_from (old new : string) (skip : nat) (s : string) : string :=
  match s with
  | EmptyString => EmptyString
  | String c rest =>
      match skip with
      | S k => replace_from old new k rest
      | O =>
          if String.prefix old s
          then String.append new (replace_from old new (String.length old - 1) rest)
          else String c (replace_from old new 0 rest)
      end
  end.

Definition replace (s old new : string) : string := replace_from old new 0 s.

(** [s.startswith(p)] *)
Definition startswith (s p : string) : bool := String.prefix p s.

(** [s[1:]] *)
Definition slice_from_1 (s : string) : string :=
  match s with
  | EmptyString => EmptyString
  | String _ rest => rest
  end.

(** [_compute_package_version_name], exported as
    [compute_package_version_name]. *)
Definition compute_package_version_name (target : string) : string :=
  let target_path := replace target "@//" "_" in
  let target_path := replace target_path "@" "" in
  let target_path := replace target_path "//:" "_" in
  let target_path := replace target_path "/" "_" in
  let target_path := replace target_path ":" "_" in
  if startswith target_path "_" then slice_from_1 target_path else target_path.

(** [c] occurs in [s]. *)
Fixpoint occurs (c : Ascii.ascii) (s : string) : Prop :=
  match s with
  | EmptyString => False
  | String a rest => a = c ∨ occurs c rest
  end.

End Naming.

(* ===================================================================== *)
(** ** Name, version and import path of a target (utils.bzl)              *)
(* ===================================================================== *)

Module Utils.
Import Naming.

(** [s.split(sep)] of Starlark for a non-empty [sep]: the pieces between
    the occurrences of [sep], found left to right without overlap; there
    is always at least one piece.  [skip] counts the characters of a
    matched separator still to be passed over. *)
Fixpoint split_from (sep : string) (skip : nat) (s : string) : list string :=
  match s with
  | EmptyString => [EmptyString]
  | String c rest =>
      match skip with
      | S k => split_from sep k rest
      | O =>
          if String.prefix sep s
          then EmptyString :: split_from sep (String.length sep - 1) rest
          else match split_from sep 0 rest with
               | piece :: pieces => String c piece :: pieces
               | [] => [String c EmptyString]
               end
      end
  end.

Definition split (s sep : string) : list string := split_from sep 0 s.

(** What the functions read of [ctx]: [str(ctx.label)], the attributes of
    the rule ([ctx.rule.attr]) and those of the aspect ([ctx.attr]).  An
    attribute that [hasattr] finds is a key of the map; the attributes
    read here are string attributes. *)
Record Ctx : Type := MkCtx {
  label : string;
  rule_attr : gmap string string;
  attr : gmap string string
}.

(** [hasattr(a, n) and a.n]: the attribute is there and not empty. *)
Definition truthy (v : option string) : bool :=
  match v with
  | Some value => bool_decide (value ≠ "")
  | None => false
  end.

Definition get_go_version_from_query (repo_name : string) : string := "external".

(** The loop over [version], [tag], [ref], [_version], left at the first
    attribute whose value is set. *)
Fixpoint scan_version_attrs (attrs : gmap string string) (names : list string)
    : option string :=
  match names with
  | [] => None
  | attr_name :: rest =>
      match attrs !! attr_name with
      | Some attr_value =>
          if bool_decide (attr_value ≠ "") && bool_decide (attr_value ≠ "")
          then Some attr_value
          else scan_version_attrs attrs rest
      | None => scan_version_attrs attrs rest
      end
  end.

Definition _get_external_go_target_details (ctx : Ctx) : string * string * string :=
  let name := "" in
  let import_path := "" in
  let label_str := label ctx in
  if negb (startswith label_str "@") then (name, "external", import_path)
  else
    let repo_name := slice_from_1 (hd "" (split label_str "//")) in
    let '(import_path, name) :=
      if truthy (rule_attr ctx !! "importpath")
      then (default "" (rule_attr ctx !! "importpath"),
            default "" (rule_attr ctx !! "importpath"))
      else (import_path, name) in
    if truthy (rule_attr ctx !! "version")
    then (name, default "" (rule_attr ctx !! "version"), import_path)
    else if truthy (rule_attr ctx !! "tag")
    then (name, default "" (rule_attr ctx !! "tag"), import_path)
    else if truthy (rule_attr ctx !! "ref")
    then (name, default "" (rule_attr ctx !! "ref"), import_path)
    else
      match scan_version_attrs (rule_attr ctx) ["version"; "tag"; "ref"; "_version"] with
      | Some version => (name, version, import_path)
      | None =>
          let name :=
            if bool_decide (name = "") then
              if startswith repo_name "com_github_"
              then replace (replace repo_name "_" "/") "com/github/" "github.com/"
              else if startswith repo_name "org_golang_x_"
              then replace (replace repo_name "_" "/") "org/golang/x/" "golang.org/x/"
              else replace repo_name "_" "/"
            else name in
          (name, get_go_version_from_query repo_name, import_path)
      end.

Definition _get_internal_go_target_details (ctx : Ctx) : string * string * string :=
  let label_parts := split (label ctx) ":" in
  let name :=
    if 1 <? length label_parts then List.last label_parts ""
    else default "" (rule_attr ctx !! "name") in
  let import_path := default "" (rule_attr ctx !! "importpath") in
  let version := if truthy (attr ctx !! "ref") then default "" (attr ctx !! "ref")
                 else "internal" in
  (name, version, import_path).

(** Exported as [get_go_name_version_and_import_path]. *)
Definition _get_go_name_version_and_import_path (ctx : Ctx) : string * string * string :=
  let is_internal_target :=
    startswith (label ctx) "@//" || startswith (label ctx) "@@//" in
  if negb is_internal_target then _get_external_go_target_details ctx
  else _get_internal_go_target_details ctx.

(** Exported as [get_go_dependency_labels]: a dependency is given by
    [str(dep.label)] when it has a label. *)
Definition _get_go_dependency_labels (deps : list (option string)) : list string :=
  foldl (λ labels dep,
           match dep with
           | Some dep_label => labels ++ [dep_label]
           | None => labels
           end) [] deps.

(** Vocabulary: the value of the first of [names] that is set and not
    empty, and the repository name of an external label. *)
Definition first_set (attrs : gmap string string) (names : list string) : option string :=
  head (omap (λ attr_name,
                match attrs !! attr_name with
                | Some value => if bool_decide (value ≠ "") then Some value else None
                | None => None
                end) names).

Definition repo_name_of (label_str : string) : string :=
  slice_from_1 (hd "" (split label_str "//")).

(** Sample targets. *)
Definition ctx_testify : Ctx :=
  {| label := "@com_github_stretchr_testify//assert:assert";
     rule_attr := {[ "name" := "assert" ]}; attr := ∅ |}.

Definition ctx_tagged : Ctx :=
  {| label := "@com_github_stretchr_testify//assert:assert";
     rule_attr := {[ "tag" := "v1.8.0" ]}; attr := ∅ |}.

Definition ctx_inner_version : Ctx :=
  {| label := "@org_golang_x_sync//errgroup:errgroup";
     rule_attr := {[ "importpath" := "golang.org/x/sync/errgroup";
                     "_version" := "v0.3.0"; "version" := "" ]}; attr := ∅ |}.

Definition ctx_main : Ctx :=
  {| label := "@//src/main:main";
     rule_attr := {[ "importpath" := "example.com/app/src/main" ]}; attr := ∅ |}.

End Utils.

(* ===================================================================== *)
(** ** The environment handed to the Go toolchain                        *)
(* ===================================================================== *)

Module GoEnv.

(** The surroundings the environment is built from: [os.Environ()];
    [go env NAME], as [None] when the command fails and else its output
    after [strings.TrimSpace]; [os.TempDir()], [os.UserHomeDir()] ([None]
    on error); [filepath.Join]. *)
Record EnvHost : Type := MkEnvHost {
  os_Environ : list string;
  go_env : string → option string;
  os_TempDir : string;
  os_UserHomeDir : option string;
  filepath_Join : string → string → string
}.

(** The loop that looks for a [HOME=] entry and leaves at the first. *)
Fixpoint homeSet (env : list string) : bool :=
  match env with
  | [] => false
  | envVar :: rest => if String.prefix "HOME=" envVar then true else homeSet rest
  end.

(** vta_analyzer_simple.go *)
Definition buildDynamicGoEnvironment (h : EnvHost) : list string :=
  let env := os_Environ h in
  let env := match go_env h "GOROOT" with
             | Some goroot => env ++ ["GOROOT=" +:+ goroot]
             | None => env
             end in
  let env := match go_env h "GOPATH" with
             | Some gopath => env ++ ["GOPATH=" +:+ gopath]
             | None => env
             end in
  let env := match go_env h "GOOS" with
             | Some goos => env ++ ["GOOS=" +:+ goos]
             | None => env
             end in
  let env := match go_env h "GOARCH" with
             | Some goarch => env ++ ["GOARCH=" +:+ goarch]
             | None => env
             end in
  let env := match go_env h "GOMODCACHE" with
             | Some modCache =>
                 if bool_decide (modCache ≠ "") then env ++ ["GOMODCACHE=" +:+ modCache]
                 else env
             | None =>
                 env ++ ["GOMODCACHE=" +:+ filepath_Join h (os_TempDir h) "gomodcache"]
             end in
  let env := match go_env h "GOCACHE" with
             | Some cache =>
                 if bool_decide (cache ≠ "") && bool_decide (cache ≠ "off")
                 then env ++ ["GOCACHE=" +:+ cache]
                 else env ++ ["GOCACHE=" +:+ filepath_Join h (os_TempDir h) "vta-gocache"]
             | None =>
                 env ++ ["GOCACHE=" +:+ filepath_Join h (os_TempDir h) "vta-gocache"]
             end in
  let env := env ++ ["GO111MODULE=on"] in
  if negb (homeSet env) then
    match os_UserHomeDir h with
    | Some userHome => env ++ ["HOME=" +:+ userHome]
    | None => env ++ ["HOME=" +:+ os_TempDir h]
    end
  else env.

(** The environment of the earlier workspace wrapper. *)
Definition legacy_environment (h : EnvHost) : list string :=
  let env := os_Environ h in
  let env := env ++ ["GO111MODULE=on"] in
  let env := env ++ ["GOCACHE=" +:+ filepath_Join h (os_TempDir h) "gocache"] in
  let env := env ++ ["GOMODCACHE=" +:+ filepath_Join h (os_TempDir h) "gomodcache"] in
  if negb (homeSet env) then env ++ ["HOME=" +:+ os_TempDir h] else env.

(** The entries a build adds to the inherited environment. *)
Definition added (h : EnvHost) (env : list string) : list string :=
  drop (length (os_Environ h)) env.

(** The entries for one variable, [name] ending in [=]. *)
Definition entries_of (name : string) (env : list string) : list string :=
  filter (λ envVar, String.prefix name envVar = true) env.

(** A sandbox without [HOME] where [go env GOCACHE] answers [off]. *)
Definition host_sandbox : EnvHost :=
  {| os_Environ := ["PATH=/usr/bin"];
     go_env := λ name, if bool_decide (name = "GOCACHE") then Some "off" else None;
     os_TempDir := "/tmp";
     os_UserHomeDir := None;
     filepath_Join := λ dir name, dir +:+ "/" +:+ name |}.

End GoEnv.

(* ===================================================================== *)
(** ** Further vocabulary for the merger                                  *)
(* ===================================================================== *)

Module MergerSpec.
Import Merger.

(** First-seen-wins as a function of the labels seen so far: the records
    the node loop appends when it starts with the labels [seen] marked. *)
Fixpoint keep (seen : gset string) (nodes : list json) : list json :=
  match nodes with
  | [] => []
  | n :: rest =>
      match label_of n with
      | None => n :: keep seen rest
      | Some l => if decide (l ∈ seen) then keep seen rest
                  else n :: keep ({[l]} ∪ seen) rest
      end
  end.

(** The labels carried by a list of records. *)
Definition labels (nodes : list json) : gset string :=
  list_to_set (omap label_of nodes).

(** [seenLabels] marks exactly the labels of [seen]. *)
Definition marks (st : merge_state) (seen : gset string) : Prop :=
  ∀ l, default false (seenLabels st !! l) = true ↔ l ∈ seen.

(** The file system after a successful [mergeJSONFiles]. *)
Definition written (w : World) (outputFile : string) (nodes : list json) : World :=
  {| files := <[outputFile := Doc nodes]> (files w);
     mkdir_ok := mkdir_ok w; write_ok := write_ok w |}.

End MergerSpec.

(* ===================================================================== *)
(** ** Further vocabulary for the call-graph analyzers                    *)
(* ===================================================================== *)

Module CallGraphSpec.
Import CallGraph.

(** The number of callee names listed in an adjacency map. *)
Definition adjacency_size (m : gmap string (list string)) : nat :=
  sum_list_with (λ kv, length kv.2) (map_to_list m).

(** A graph without the entries and edges the loops skip: entries with a
    nil function or node are dropped, and so are the out-edges that are
    nil or lack a callee function. *)
Definition clean_entry (entry : option Function * option Node)
    : option (option Function * option Node) :=
  match entry with
  | (Some fn, Some node) =>
      Some (Some fn,
            Some {| node_Out :=
                      (λ callee, Some {| edge_Callee := Some (Some callee) |})
                        <$> omap retained_callee (node_Out node) |})
  | _ => None
  end.

Definition clean (g : Graph) : Graph := omap clean_entry g.

(** What a run needs from its surroundings: three arguments, a packages
    file that can be read and parsed, and an output that can be written. *)
Definition inputs_ok (h : Host) (osArgs : list string) : Prop :=
  ∃ prog packagesFile outputFile response,
    osArgs = [prog; packagesFile; outputFile] ∧
    read_packages_file h packagesFile = Some (Some response) ∧
    mkdir_ok h outputFile = true ∧ write_ok h outputFile = true.

End CallGraphSpec.

(* ===================================================================== *)
(** ** Facts about the merger                                             *)
(* ===================================================================== *)

Section MergerFacts.
Import Merger.

Implicit Types (st : merge_state) (n : json) (l : string) (w : World).

Lemma process_node_unlabeled st n :
  label_of n = None → process_node st n = append_node st n.
Proof.
  unfold label_of, process_node.
  destruct (unmarshal_object n) as [node|]; [|done].
  destruct (assert_string (node !! "original_label")) as [s [|]]; simpl; [|done].
  case_bool_decide; [discriminate | done].
Qed.

Lemma process_node_labeled st n l :
  label_of n = Some l →
  process_node st n =
    if default false (seenLabels st !! l) then st
    else {| seenLabels := <[l := true]> (seenLabels st);
            mergedNodes := mergedNodes st ++ [n] |}.
Proof.
  unfold label_of, process_node.
  destruct (unmarshal_object n) as [node|]; [|done].
  destruct (assert_string (node !! "original_label")) as [s [|]]; simpl; [|done].
  case_bool_decide; [|done].
  intros [= ->]. by destruct (default false (seenLabels st !! l)).
Qed.

Lemma seen_inv_initial : seen_inv initial_state.
Proof. intros l. simpl. rewrite lookup_empty. simpl. split; [done | by intros ?%elem_of_nil]. Qed.

Lemma omap_snoc n (ns : list json) :
  omap label_of (ns ++ [n]) = omap label_of ns ++ option_list (label_of n).
Proof. rewrite omap_app. simpl. by destruct (label_of n). Qed.

Lemma seen_inv_step st n : seen_inv st → seen_inv (process_node st n).
Proof.
  intros Hinv l. destruct (label_of n) as [l'|] eqn:Hl.
  - rewrite (process_node_labeled _ _ _ Hl).
    destruct (default false (seenLabels st !! l')) eqn:Hs; [apply Hinv|].
    simpl. rewrite omap_snoc, Hl, elem_of_app. simpl.
    specialize (Hinv l). destruct (decide (l' = l)) as [->|Hne].
    + rewrite lookup_insert_eq. simpl. split; [intros _; right; apply list_elem_of_here | done].
    + rewrite lookup_insert_ne by done. rewrite Hinv. split; [by left|].
      intros [?|?%list_elem_of_singleton]; [done | congruence].
  - rewrite (process_node_unlabeled _ _ Hl). unfold append_node. simpl.
    rewrite omap_snoc, Hl, app_nil_r. apply Hinv.
Qed.

Lemma seen_inv_run (ns : list json) : seen_inv (foldl process_node initial_state ns).
Proof.
  induction ns as [|n ns IH] using rev_ind; [apply seen_inv_initial|].
  rewrite foldl_app. simpl. by apply seen_inv_step.
Qed.

Lemma merged_snoc (ns : list json) n :
  merged (ns ++ [n]) = mergedNodes (process_node (foldl process_node initial_state ns) n).
Proof. unfold merged. by rewrite foldl_app. Qed.


(** Case analysis on one step of the node loop, phrased on [merged]. *)
Lemma merged_step (ns : list json) n :
  merged (ns ++ [n]) =
    match label_of n with
    | None => merged ns ++ [n]
    | Some l => if decide (l ∈ omap label_of (merged ns)) then merged ns
                else merged ns ++ [n]
    end.
Proof.
  rewrite merged_snoc. pose proof (seen_inv_run ns) as Hinv.
  destruct (label_of n) as [l|] eqn:Hl.
  - rewrite (process_node_labeled _ _ _ Hl). specialize (Hinv l). fold (merged ns) in Hinv.
    destruct (default false _) eqn:Hs.
    + rewrite decide_True; [done | by apply Hinv].
    + rewrite decide_False; [done|]. intros ?%Hinv. congruence.
  - by rewrite (process_node_unlabeled _ _ Hl).
Qed.

Lemma merged_NoDup (ns : list json) : NoDup (omap label_of (merged ns)).
Proof.
  induction ns as [|n ns IH] using rev_ind; [constructor|].
  rewrite merged_step. destruct (label_of n) as [l|] eqn:Hl.
  - case_decide; [done|]. rewrite omap_snoc, Hl. simpl.
    apply NoDup_app. split_and!; [done| |apply NoDup_singleton].
    intros x Hx ->%list_elem_of_singleton. done.
  - by rewrite omap_snoc, Hl, app_nil_r.
Qed.

Lemma merged_unlabeled (ns : list json) :
  filter unlabeled (merged ns) = filter unlabeled ns.
Proof.
  induction ns as [|n ns IH] using rev_ind; [done|].
  rewrite merged_step, (filter_app _ ns). destruct (label_of n) as [l|] eqn:Hl.
  - assert (filter unlabeled [n] = []) as ->.
    { rewrite filter_cons_False; [done|]. unfold unlabeled. congruence. }
    rewrite app_nil_r. case_decide; [done|].
    rewrite filter_app, IH.
    rewrite (filter_cons_False _ n); [by rewrite app_nil_r|]. unfold unlabeled. congruence.
  - by rewrite filter_app, IH.
Qed.


(** A list whose labels are pairwise distinct is left as it is. *)
Lemma merged_fixpoint (ns : list json) :
  NoDup (omap label_of ns) → merged ns = ns.
Proof.
  induction ns as [|n ns IH] using rev_ind; [done|].
  rewrite omap_snoc. intros Hnd. apply NoDup_app in Hnd as (Hns & Hfresh & _).
  rewrite merged_step, (IH Hns). destruct (label_of n) as [l|]; [|done].
  rewrite decide_False; [done|]. intros Hin. apply (Hfresh l Hin). apply list_elem_of_here.
Qed.

(** The file loop feeds the node loop with [input_nodes] and logs one
    warning per unreadable or malformed input. *)
Lemma file_loop w (inputFiles : list string) st (log : list diag) :
  foldl (process_file w) (st, log) inputFiles =
    (foldl process_node st (input_nodes w inputFiles),
     log ++ inputFiles ≫= warning_of w).
Proof.
  revert st log. induction inputFiles as [|f fs IH]; intros st log; simpl.
  - by rewrite app_nil_r.
  - unfold input_nodes. simpl. rewrite foldl_app.
    unfold process_file at 2, nodes_of at 1, warning_of at 1. simpl.
    destruct (files w !! f) as [[| |nodes]|]; simpl; rewrite IH; unfold input_nodes.
    + by rewrite <- app_assoc.
    + by rewrite <- app_assoc.
    + done.
    + done.
Qed.

Lemma mergeJSONFiles_unfold w (outputFile : string) (inputFiles : list string) :
  mergeJSONFiles w outputFile inputFiles =
    let log := inputFiles ≫= warning_of w in
    if negb (mkdir_ok w outputFile) then (Some ErrCreateDir, w, log)
    else if negb (write_ok w outputFile) then (Some ErrWrite, w, log)
    else (None,
          {| files := <[outputFile := Doc (merged (input_nodes w inputFiles))]> (files w);
             mkdir_ok := mkdir_ok w; write_ok := write_ok w |},
          log).
Proof. unfold mergeJSONFiles. rewrite file_loop. simpl. done. Qed.

Lemma mergeJSONFiles_ok w (outputFile : string) (inputFiles : list string) :
  mkdir_ok w outputFile = true → write_ok w outputFile = true →
  mergeJSONFiles w outputFile inputFiles =
    (None,
     {| files := <[outputFile := Doc (merged (input_nodes w inputFiles))]> (files w);
        mkdir_ok := mkdir_ok w; write_ok := write_ok w |},
     inputFiles ≫= warning_of w).
Proof. intros Hm Hw. rewrite mergeJSONFiles_unfold. simpl. by rewrite Hm, Hw. Qed.

Lemma input_nodes_app w (fs gs : list string) :
  input_nodes w (fs ++ gs) = input_nodes w fs ++ input_nodes w gs.
Proof. unfold input_nodes. apply bind_app. Qed.

Lemma input_nodes_cons w f (fs : list string) :
  input_nodes w (f :: fs) = nodes_of w f ++ input_nodes w fs.
Proof. reflexivity. Qed.




(** C7. Pass-through invariant: the records without a non-empty
    [original_label] (absent, empty, not a string, or the record is not a
    keyed object) reach the output exactly as they come in, each occurrence
    kept and in traversal order, also when the same record is repeated
    verbatim across inputs. *)
Theorem unlabeled_pass_through w (outputFile : string) (inputFiles : list string) :
  mkdir_ok w outputFile = true → write_ok w outputFile = true →
  ∃ w' log out_nodes,
    mergeJSONFiles w outputFile inputFiles = (None, w', log) ∧
    files w' !! outputFile = Some (Doc out_nodes) ∧
    filter unlabeled out_nodes = filter unlabeled (input_nodes w inputFiles).
Proof.
  intros Hm Hw. eexists _, _, (merged (input_nodes w inputFiles)).
  split; [by apply mergeJSONFiles_ok|]. simpl. split; [by rewrite lookup_insert_eq|].
  apply merged_unlabeled.
Qed.

Lemma unlabeled_pass_through_witness :
  mkdir_ok world_AB "out.json" = true ∧ write_ok world_AB "out.json" = true ∧
  ∃ w' log out_nodes,
    mergeJSONFiles world_AB "out.json" ["A.json"; "B.json"] = (None, w', log) ∧
    files w' !! "out.json" = Some (Doc out_nodes) ∧
    filter unlabeled out_nodes =
      [record_plain; JNumber "7"; record_plain; record_blank; JNumber "7"].
Proof.
  split; [reflexivity|]. split; [reflexivity|].
  destruct (unlabeled_pass_through world_AB "out.json" ["A.json"; "B.json"]
              eq_refl eq_refl) as (w' & log & out_nodes & Hrun & Hout & Hpass).
  exists w', log, out_nodes. split; [exact Hrun|]. split; [exact Hout|].
  rewrite Hpass. reflexivity.
Defined.

(** C8. Idempotence: merging the output of a merge, as the sole input,
    writes a file with the same content, and raises no warning. *)
Theorem merge_idempotent w (outputFile again : string) (inputFiles : list string) :
  mkdir_ok w outputFile = true → write_ok w outputFile = true →
  mkdir_ok w again = true → write_ok w again = true →
  ∃ w1 log1 w2,
    mergeJSONFiles w outputFile inputFiles = (None, w1, log1) ∧
    mergeJSONFiles w1 again [outputFile] = (None, w2, []) ∧
    files w2 !! again = files w1 !! outputFile ∧
    files w1 !! outputFile = Some (Doc (merged (input_nodes w inputFiles))).
Proof.
  intros Hm Hw Hm2 Hw2. eexists _, _, _.
  split; [by apply mergeJSONFiles_ok|].
  split.
  - rewrite mergeJSONFiles_ok by done. f_equal.
    unfold warning_of. simpl. by rewrite lookup_insert_eq.
  - simpl. rewrite !lookup_insert_eq. split; [|done]. do 2 f_equal.
    unfold input_nodes, nodes_of. simpl. rewrite lookup_insert_eq, app_nil_r.
    apply merged_fixpoint, merged_NoDup.
Qed.

Lemma merge_idempotent_witness :
  mkdir_ok world_AB "out.json" = true ∧ write_ok world_AB "out.json" = true ∧
  mkdir_ok world_AB "again.json" = true ∧ write_ok world_AB "again.json" = true ∧
  ∃ w1 log1 w2,
    mergeJSONFiles world_AB "out.json" ["A.json"; "C.json"; "B.json"] = (None, w1, log1) ∧
    mergeJSONFiles w1 "again.json" ["out.json"] = (None, w2, []) ∧
    files w2 !! "again.json" = files w1 !! "out.json" ∧
    files w1 !! "out.json" =
      Some (Doc [record_A; record_plain; JNumber "7";
                 record_plain; record_blank; JNumber "7"]).
Proof.
  do 4 (split; [reflexivity|]).
  destruct (merge_idempotent world_AB "out.json" "again.json"
              ["A.json"; "C.json"; "B.json"] eq_refl eq_refl eq_refl eq_refl)
    as (w1 & log1 & w2 & H1 & H2 & H3 & H4).
  exists w1, log1, w2. split; [exact H1|]. split; [exact H2|]. split; [exact H3|].
  rewrite H4. reflexivity.
Defined.

(** C6, as stated, fails: started without an output-file argument the
    merger prints its usage line and exits 1, although nothing failed to be
    written. *)
Lemma merger_usage_exit_counterexample :
  ¬ (∀ w (osArgs : list string),
       (main w osArgs).1.1 ≠ 0 →
       ∃ outputFile, osArgs !! 1 = Some outputFile ∧
         (mkdir_ok w outputFile = false ∨ write_ok w outputFile = false)).
Proof.
  intros H. destruct (H world_AB ["merge_json_deps"]) as (out & Hout & _).
  - simpl. discriminate.
  - discriminate.
Qed.

(** C6, amended. Started with an output-file argument, the merger skips a
    missing input without a word, skips an unreadable or malformed input
    after one warning on standard error, and in both cases goes on with the
    remaining inputs; it exits 1 exactly when the output directory cannot be
    created or the output file cannot be written, and 0 otherwise, having
    written the merge of all the inputs that could be read. *)
Theorem merger_skips_and_exit_status w (prog outputFile : string)
    (inputFiles : list string) :
  main w [] = (1, w, [UsageLine]) ∧ main w [prog] = (1, w, [UsageLine]) ∧
  (∀ f, files w !! f = None → warning_of w f = [] ∧ nodes_of w f = []) ∧
  (∀ f, files w !! f = Some Unreadable →
        warning_of w f = [WarnRead f] ∧ nodes_of w f = []) ∧
  (∀ f, files w !! f = Some Malformed →
        warning_of w f = [WarnParse f] ∧ nodes_of w f = []) ∧
  (∀ f nodes, files w !! f = Some (Doc nodes) →
        warning_of w f = [] ∧ nodes_of w f = nodes) ∧
  ∃ code w' tail,
    main w (prog :: outputFile :: inputFiles) =
      (code, w', (inputFiles ≫= warning_of w) ++ tail) ∧
    ((code = 0 ∧ tail = [] ∧
      mkdir_ok w outputFile = true ∧ write_ok w outputFile = true ∧
      files w' !! outputFile = Some (Doc (merged (input_nodes w inputFiles))))
     ∨
     (code = 1 ∧ w' = w ∧
      ((mkdir_ok w outputFile = false ∧ tail = [ErrorLine ErrCreateDir]) ∨
       (mkdir_ok w outputFile = true ∧ write_ok w outputFile = false ∧
        tail = [ErrorLine ErrWrite])))).
Proof.
  split_and!.
  - reflexivity.
  - reflexivity.
  - intros f Hf. unfold warning_of, nodes_of. by rewrite Hf.
  - intros f Hf. unfold warning_of, nodes_of. by rewrite Hf.
  - intros f Hf. unfold warning_of, nodes_of. by rewrite Hf.
  - intros f nodes Hf. unfold warning_of, nodes_of. by rewrite Hf.
  - unfold main. rewrite mergeJSONFiles_unfold. simpl.
    destruct (mkdir_ok w outputFile) eqn:Hm; simpl.
    + destruct (write_ok w outputFile) eqn:Hw; simpl.
      * eexists 0, _, []. rewrite app_nil_r. split; [done|]. left.
        split_and!; try done. simpl. by rewrite lookup_insert_eq.
      * eexists 1, _, _. split; [done|]. right. split_and!; try done. by right.
    + eexists 1, _, _. split; [done|]. right. split_and!; try done. by left.
Qed.

(** A missing, a malformed and an unreadable input ahead of a good one:
    two warnings, exit status 0, and the records of the good input. *)
Lemma merger_skips_and_exit_status_witness :
  files world_AB !! "missing.json" = None ∧
  ∃ w',
    main world_AB
      ["merge_json_deps"; "out.json"; "missing.json"; "C.json"; "D.json"; "A.json"] =
      (0, w', [WarnParse "C.json"; WarnRead "D.json"]) ∧
    files w' !! "out.json" = Some (Doc [record_A; record_plain; JNumber "7"]).
Proof.
  split; [reflexivity|].
  destruct (merger_skips_and_exit_status world_AB "merge_json_deps" "out.json"
              ["missing.json"; "C.json"; "D.json"; "A.json"])
    as (_ & _ & _ & _ & _ & _ & code & w' & tail & Hmain & Hcases).
  exists w'. destruct Hcases as [(-> & -> & _ & _ & Hout) | (_ & _ & Hfail)].
  - split; [exact Hmain | exact Hout].
  - destruct Hfail as [(Hm & _) | (_ & Hw & _)]; discriminate.
Defined.

End MergerFacts.

(* ===================================================================== *)
(** ** Facts about fact-file naming                                       *)
(* ===================================================================== *)

Section NamingFacts.
Import Naming.

Example name_internal :
  compute_package_version_name "@//src/utils:utils" = "src_utils_utils".
Proof. reflexivity. Qed.

Example name_external :
  compute_package_version_name "@com_github_gorilla_mux//:mux" = "com_github_gorilla_mux_mux".
Proof. reflexivity. Qed.

Example name_canonical_internal :
  compute_package_version_name "@@//src/main:main" = "src_main_main".
Proof. reflexivity. Qed.

Example name_strips_one_underscore :
  compute_package_version_name "//:_x" = "_x".
Proof. reflexivity. Qed.

Lemma occurs_append c (s t : string) :
  occurs c (String.append s t) ↔ occurs c s ∨ occurs c t.
Proof. induction s as [|a s IH]; simpl; [tauto|]. rewrite IH. tauto. Qed.

(** A replacement brings in no character beyond those of [new]. *)
Lemma occurs_replace_from c (old new : string) (s : string) :
  ∀ skip, occurs c (replace_from old new skip s) → occurs c s ∨ occurs c new.
Proof.
  induction s as [|a s IH]; intros skip; cbn [replace_from occurs]; [tauto|].
  destruct skip as [|k].
  - destruct (String.prefix old (String a s)).
    + rewrite occurs_append. intros [?|H]; [tauto|]. apply IH in H. tauto.
    + cbn [occurs]. intros [?|H]; [tauto|]. apply IH in H. tauto.
  - intros H. apply IH in H. tauto.
Qed.

Lemma occurs_replace c (s old new : string) :
  occurs c (replace s old new) → occurs c s ∨ occurs c new.
Proof. apply occurs_replace_from. Qed.

(** Replacing a one-character pattern leaves no occurrence of it, unless
    [new] brings it back. *)
Lemma replace_char_gone c (s new : string) :
  ¬ occurs c new → ¬ occurs c (replace s (String c EmptyString) new).
Proof.
  intros Hnew. unfold replace. induction s as [|a s IH]; simpl; [tauto|].
  destruct (Ascii.ascii_dec c a) as [->|Hne]; simpl.
  - assert (String.prefix "" s = true) as -> by (by destruct s).
    rewrite occurs_append. tauto.
  - intros [?|?]; [congruence | tauto].
Qed.

Lemma occurs_slice_from_1 c (s : string) : occurs c (slice_from_1 s) → occurs c s.
Proof. destruct s; simpl; tauto. Qed.

(** C9, as stated, fails: the naming function is not collision-free.  A
    slash in the package path and an underscore in its place give the same
    file name. *)
Lemma naming_collision_counterexample :
  ¬ (∀ a b : string,
       a ≠ b → compute_package_version_name a ≠ compute_package_version_name b).
Proof.
  intros H. apply (H "@//foo/bar:baz" "@//foo_bar:baz"); [discriminate | reflexivity].
Qed.

(** C9, amended. The file name is a function of the label alone, and it
    holds none of the path-separator and label-syntax characters [/], [:]
    and [@]: they are replaced by underscores or removed, and one leading
    underscore is stripped.  Distinct labels may share a file name. *)
Theorem naming_sanitizes (target : string) :
  ¬ occurs "/"%char (compute_package_version_name target) ∧
  ¬ occurs ":"%char (compute_package_version_name target) ∧
  ¬ occurs "@"%char (compute_package_version_name target) ∧
  (∀ stem, replace (replace (replace (replace (replace target
             "@//" "_") "@" "") "//:" "_") "/" "_") ":" "_" = String "_" stem →
           compute_package_version_name target = stem).
Proof.
  unfold compute_package_version_name.
  set (p1 := replace target "@//" "_").
  set (p2 := replace p1 "@" "").
  set (p3 := replace p2 "//:" "_").
  set (p4 := replace p3 "/" "_").
  set (p5 := replace p4 ":" "_").
  assert (¬ occurs "@"%char p2) as H2.
  { apply replace_char_gone. simpl. tauto. }
  assert (¬ occurs "/"%char p4) as H4.
  { apply replace_char_gone. simpl. intros [?|[]]. discriminate. }
  assert (¬ occurs ":"%char p5) as H5c.
  { apply replace_char_gone. simpl. intros [?|[]]. discriminate. }
  assert (¬ occurs "/"%char p5) as H5s.
  { intros [?|H]%occurs_replace; [done|]. simpl in H. destruct H as [?|[]]. discriminate. }
  assert (¬ occurs "@"%char p5) as H5a.
  { intros [H|H]%occurs_replace; [|simpl in H; destruct H as [?|[]]; discriminate].
    apply occurs_replace in H as [H|H]; [|simpl in H; destruct H as [?|[]]; discriminate].
    apply occurs_replace in H as [H|H]; [done|simpl in H; destruct H as [?|[]]; discriminate]. }
  split_and!.
  - destruct (startswith p5 "_"); [intros ?%occurs_slice_from_1|]; done.
  - destruct (startswith p5 "_"); [intros ?%occurs_slice_from_1|]; done.
  - destruct (startswith p5 "_"); [intros ?%occurs_slice_from_1|]; done.
  - intros stem Hstem. rewrite Hstem. unfold startswith. by destruct stem.
Qed.

Lemma naming_sanitizes_witness :
  ¬ occurs "/"%char (compute_package_version_name "@//src/utils:utils") ∧
  compute_package_version_name "@//src/utils:utils" = "src_utils_utils".
Proof.
  destruct (naming_sanitizes "@//src/utils:utils") as (Hslash & _ & _ & Hstrip).
  split; [exact Hslash|]. apply Hstrip. reflexivity.
Defined.

End NamingFacts.

(* ===================================================================== *)
(** ** Facts about the call-graph analyzers                               *)
(* ===================================================================== *)

Section CallGraphFacts.
Import CallGraph.

Implicit Types (g : Graph) (fn : Function) (node : Node).

(** Folding insertions from the left is [list_to_map] of the reversed
    list: the last binding of a key wins. *)
Lemma foldl_insert_list_to_map {V} (m : gmap string V) (kvs : list (string * V)) :
  foldl (λ m kv, <[kv.1 := kv.2]> m) m kvs = list_to_map (reverse kvs) ∪ m.
Proof.
  revert m. induction kvs as [|[k v] kvs IH]; intros m; simpl.
  - by rewrite (left_id_L ∅ (∪)).
  - rewrite IH, reverse_cons, list_to_map_app. simpl.
    rewrite <- (assoc_L (∪)). f_equal.
    rewrite insert_empty, <- insert_union_singleton_l. done.
Qed.

Lemma entry_caller_Some (entry : option Function * option Node) caller (callees : list string) :
  entry_caller entry = Some (caller, callees) ↔
  ∃ fn node, entry = (Some fn, Some node) ∧ func_name fn = caller ∧
             callees = callee_names (node_Out node) ∧ callees ≠ [].
Proof.
  unfold entry_caller. split.
  - destruct entry as [[fn|] [node|]]; try done.
    destruct (callee_names (node_Out node)) as [|c cs] eqn:Hc; [done|].
    intros [= <- <-]. exists fn, node. by rewrite Hc.
  - intros (fn & node & -> & <- & -> & Hne).
    by destruct (callee_names (node_Out node)).
Qed.

Lemma elem_of_callers_with_edges g caller (callees : list string) :
  (caller, callees) ∈ callers_with_edges g ↔
  ∃ fn node, (Some fn, Some node) ∈ g ∧ func_name fn = caller ∧
             callees = callee_names (node_Out node) ∧ callees ≠ [].
Proof.
  unfold callers_with_edges. rewrite list_elem_of_omap. split.
  - intros (entry & Hin & (fn & node & -> & ?)%entry_caller_Some). by exists fn, node.
  - intros (fn & node & Hin & ?). exists (Some fn, Some node). split; [done|].
    apply entry_caller_Some. by exists fn, node.
Qed.

(** **** vta_analyzer_bazel.go *)

Lemma bazel_edge_loop (out : list (option Edge)) (callees : list string) (n : nat) :
  foldl Bazel.edge_step (callees, n) out =
    (callees ++ callee_names out, n + length (callee_names out)).
Proof.
  revert callees n. unfold callee_names.
  induction out as [|e out IH]; intros callees n; simpl.
  - by rewrite app_nil_r, Nat.add_0_r.
  - unfold Bazel.edge_step at 2. destruct (retained_callee e) as [callee|]; simpl.
    + rewrite IH, <- app_assoc. simpl. by rewrite Nat.add_succ_r.
    + apply IH.
Qed.

Lemma bazel_node_step (acc : gmap string (list string) * nat)
    (entry : option Function * option Node) :
  Bazel.node_step acc entry =
    (match entry_caller entry with
     | Some (caller, callees) => <[caller := callees]> acc.1
     | None => acc.1
     end,
     acc.2 + length (entry_edges entry)).
Proof.
  destruct acc as [cg n]. destruct entry as [[fn|] [node|]]; simpl;
    try (by rewrite Nat.add_0_r).
  rewrite bazel_edge_loop. simpl. rewrite length_fmap.
  unfold callee_names at 3. rewrite length_fmap.
  destruct (callee_names (node_Out node)); done.
Qed.

Lemma bazel_node_loop g (cg : gmap string (list string)) (n : nat) :
  foldl Bazel.node_step (cg, n) g =
    (foldl (λ m kv, <[kv.1 := kv.2]> m) cg (callers_with_edges g),
     n + length (retained_edges g)).
Proof.
  revert cg n. induction g as [|entry g IH]; intros cg n; simpl.
  - by rewrite Nat.add_0_r.
  - rewrite bazel_node_step. simpl. rewrite IH.
    unfold callers_with_edges, retained_edges. simpl.
    rewrite length_app, Nat.add_assoc. f_equal.
    by destruct (entry_caller entry) as [[caller callees]|].
Qed.

Lemma bazel_graph_result (targetID targetName targetPackage : string) g :
  Bazel.graph_result targetID targetName targetPackage g =
    {| Bazel.PackageID := targetID; Bazel.PackageName := targetName;
       Bazel.ImportPath := targetPackage;
       Bazel.CallGraph := list_to_map (reverse (callers_with_edges g));
       Bazel.TotalFuncs := size (list_to_map (reverse (callers_with_edges g))
                                   : gmap string (list string));
       Bazel.TotalEdges := length (retained_edges g);
       Bazel.Algorithm := "VTA" |}.
Proof.
  unfold Bazel.graph_result. rewrite bazel_node_loop, foldl_insert_list_to_map.
  by rewrite (right_id_L ∅ (∪)).
Qed.

(** **** vta_analyzer_simple.go *)

Lemma info_of_name fn : Workspace.fi_Name (Workspace.info_of fn) = func_name fn.
Proof.
  unfold Workspace.info_of, Workspace.extractFunctionInfo, func_name.
  destruct (fn_Pkg fn) as [[path|]|]; by destruct (fn_Signature fn).
Qed.

Lemma keyed_eq fn : Workspace.keyed fn = (func_name fn, Workspace.info_of fn).
Proof. unfold Workspace.keyed. by rewrite info_of_name. Qed.

Lemma workspace_edge_step (callerInfo : Workspace.FunctionInfo)
    (acc : Workspace.extraction * list string) (e : option Edge) :
  Workspace.edge_step callerInfo acc e =
    match retained_callee e with
    | Some callee =>
        ({| Workspace.callGraph := Workspace.callGraph acc.1;
            Workspace.functions :=
              <[func_name callee := Workspace.info_of callee]> (Workspace.functions acc.1);
            Workspace.callEdges :=
              Workspace.callEdges acc.1 ++
              [{| Workspace.Caller := callerInfo;
                  Workspace.Callee := Workspace.info_of callee |}];
            Workspace.totalEdges := S (Workspace.totalEdges acc.1) |},
         acc.2 ++ [func_name callee])
    | None => acc
    end.
Proof.
  unfold Workspace.edge_step. destruct (retained_callee e) as [callee|]; [|done].
  fold (Workspace.info_of callee). by rewrite info_of_name.
Qed.

Lemma workspace_edge_loop (callerInfo : Workspace.FunctionInfo)
    (out : list (option Edge)) (x : Workspace.extraction) (callees : list string) :
  foldl (Workspace.edge_step callerInfo) (x, callees) out =
    ({| Workspace.callGraph := Workspace.callGraph x;
        Workspace.functions :=
          foldl (λ m kv, <[kv.1 := kv.2]> m) (Workspace.functions x)
                (Workspace.keyed <$> omap retained_callee out);
        Workspace.callEdges :=
          Workspace.callEdges x ++
          ((λ callee, {| Workspace.Caller := callerInfo;
                         Workspace.Callee := Workspace.info_of callee |})
             <$> omap retained_callee out);
        Workspace.totalEdges :=
          Workspace.totalEdges x + length (omap retained_callee out) |},
     callees ++ callee_names out).
Proof.
  revert x callees. induction out as [|e out IH]; intros x callees.
  - simpl. rewrite !app_nil_r, Nat.add_0_r. by destruct x.
  - cbn [foldl]. rewrite workspace_edge_step.
    unfold callee_names. cbn [omap list_omap].
    destruct (retained_callee e) as [callee|]; [|apply IH].
    rewrite IH.
    cbn [Workspace.callGraph Workspace.functions Workspace.callEdges
         Workspace.totalEdges fmap list_fmap foldl length fst snd].
    rewrite <- !app_assoc, Nat.add_succ_r. unfold Workspace.keyed at 2.
    by rewrite info_of_name.
Qed.

Lemma workspace_node_step (x : Workspace.extraction)
    (entry : option Function * option Node) :
  Workspace.node_step x entry =
    {| Workspace.callGraph :=
         match entry_caller entry with
         | Some (caller, callees) => <[caller := callees]> (Workspace.callGraph x)
         | None => Workspace.callGraph x
         end;
       Workspace.functions :=
         foldl (λ m kv, <[kv.1 := kv.2]> m) (Workspace.functions x)
               (Workspace.entry_functions entry);
       Workspace.callEdges :=
         Workspace.callEdges x ++ (Workspace.edge_of <$> entry_edges entry);
       Workspace.totalEdges := Workspace.totalEdges x + length (entry_edges entry) |}.
Proof.
  destruct entry as [[fn|] [node|]]; cbn [entry_caller entry_edges
    Workspace.entry_functions Workspace.node_step fmap list_fmap length foldl];
    try (rewrite app_nil_r, Nat.add_0_r; by destruct x).
  fold (Workspace.info_of fn). rewrite workspace_edge_loop.
  cbn [Workspace.callGraph Workspace.functions Workspace.callEdges
       Workspace.totalEdges app].
  rewrite length_fmap, <- list_fmap_compose.
  rewrite (keyed_eq fn), !info_of_name. cbn [fst snd].
  destruct (callee_names (node_Out node)) as [|c cs]; reflexivity.
Qed.

Lemma workspace_node_loop g (x : Workspace.extraction) :
  foldl Workspace.node_step x g =
    {| Workspace.callGraph :=
         foldl (λ m kv, <[kv.1 := kv.2]> m) (Workspace.callGraph x) (callers_with_edges g);
       Workspace.functions :=
         foldl (λ m kv, <[kv.1 := kv.2]> m) (Workspace.functions x)
               (g ≫= Workspace.entry_functions);
       Workspace.callEdges :=
         Workspace.callEdges x ++ (Workspace.edge_of <$> retained_edges g);
       Workspace.totalEdges := Workspace.totalEdges x + length (retained_edges g) |}.
Proof.
  revert x. induction g as [|entry g IH]; intros x.
  - simpl. rewrite app_nil_r, Nat.add_0_r. by destruct x.
  - cbn [foldl]. rewrite IH, workspace_node_step.
    cbn [Workspace.callGraph Workspace.functions Workspace.callEdges Workspace.totalEdges].
    unfold callers_with_edges, retained_edges.
    cbn [omap list_omap mbind list_bind].
    rewrite fmap_app, length_app, foldl_app, <- app_assoc, Nat.add_assoc.
    by destruct (entry_caller entry) as [[caller callees]|].
Qed.

Lemma workspace_graph_result (targetID targetName targetPkgPath : string) g :
  Workspace.graph_result targetID targetName targetPkgPath g =
    {| Workspace.PackageID := targetID; Workspace.PackageName := targetName;
       Workspace.ImportPath := targetPkgPath;
       Workspace.CallGraph := list_to_map (reverse (callers_with_edges g));
       Workspace.Functions := list_to_map (reverse (g ≫= Workspace.entry_functions));
       Workspace.CallEdges := Workspace.edge_of <$> retained_edges g;
       Workspace.TotalFuncs := size (list_to_map (reverse (callers_with_edges g))
                                       : gmap string (list string));
       Workspace.TotalEdges := length (retained_edges g);
       Workspace.Algorithm := "VTA" |}.
Proof.
  unfold Workspace.graph_result. rewrite workspace_node_loop.
  cbn [Workspace.callGraph Workspace.functions Workspace.callEdges
       Workspace.totalEdges app Nat.add].
  rewrite !foldl_insert_list_to_map. by rewrite !(right_id_L ∅ (∪)).
Qed.

(** **** The package filters *)

Lemma foldl_keep {A} (keep : A → bool) (acc l : list A) :
  foldl (λ kept x, if keep x then kept ++ [x] else kept) acc l =
    acc ++ filter (λ x, keep x = true) l.
Proof.
  revert acc. induction l as [|x l IH]; intros acc; simpl.
  - by rewrite app_nil_r.
  - rewrite IH. destruct (keep x) eqn:Hx.
    + rewrite filter_cons_True by done. by rewrite <- app_assoc.
    + rewrite filter_cons_False; [done|]. congruence.
Qed.

Lemma filterValidPackages_filter (pkgs : list Package) :
  Bazel.filterValidPackages pkgs =
    filter (λ pkg, hasSyntax pkg || hasTypes pkg = true) pkgs.
Proof. unfold Bazel.filterValidPackages. by rewrite foldl_keep. Qed.

Lemma valid_packages_filter (pkgs : list Package) :
  Workspace.valid_packages pkgs =
    filter (λ pkg, hasTypes pkg && hasSyntax pkg = true) pkgs.
Proof. unfold Workspace.valid_packages. by rewrite foldl_keep. Qed.










(** **** The adjacency map and the function count *)

Lemma lookup_callers g caller (callees : list string) :
  (list_to_map (reverse (callers_with_edges g)) : gmap string (list string)) !! caller
    = Some callees →
  ∃ fn node, (Some fn, Some node) ∈ g ∧ func_name fn = caller ∧
             callees = callee_names (node_Out node) ∧ callees ≠ [].
Proof.
  intros Hin. apply elem_of_list_to_map_2 in Hin. rewrite elem_of_reverse in Hin.
  by apply elem_of_callers_with_edges in Hin.
Qed.

Lemma dom_callers g :
  dom (list_to_map (reverse (callers_with_edges g)) : gmap string (list string)) =
    list_to_set (callers_with_edges g).*1.
Proof.
  rewrite dom_list_to_map_L, fmap_reverse. apply set_eq. intros x.
  by rewrite !elem_of_list_to_set, elem_of_reverse.
Qed.

Lemma size_callers g :
  size (list_to_map (reverse (callers_with_edges g)) : gmap string (list string)) =
    size (list_to_set (callers_with_edges g).*1 : gset string).
Proof. by rewrite <- dom_callers, size_dom. Qed.

Lemma elem_of_caller_names g (name : string) :
  name ∈ (callers_with_edges g).*1 ↔
  ∃ fn node, (Some fn, Some node) ∈ g ∧ func_name fn = name ∧
             callee_names (node_Out node) ≠ [].
Proof.
  rewrite list_elem_of_fmap. split.
  - intros ([caller callees] & -> & (fn & node & ? & ? & -> & ?)%elem_of_callers_with_edges).
    by exists fn, node.
  - intros (fn & node & Hin & Hname & Hne).
    exists (name, callee_names (node_Out node)). split; [done|].
    apply elem_of_callers_with_edges. by exists fn, node.
Qed.

(** The callee names listed for a graph entry are those of its elements of
    [callEdges], one for one. *)
Lemma entry_edges_callee_names fn node :
  (Workspace.fi_Name ∘ Workspace.Callee ∘ Workspace.edge_of) <$>
    entry_edges (Some fn, Some node) = callee_names (node_Out node).
Proof.
  unfold entry_edges, callee_names. rewrite <- list_fmap_compose.
  apply list_fmap_ext. intros i callee _. simpl. apply info_of_name.
Qed.

(** C3, as stated, fails: a callee reached from two call sites of one
    caller is listed twice in [call_graph]. *)
Lemma adjacency_duplicates_counterexample :
  ¬ (∀ (g : Graph) (id name path caller : string) (callees : list string),
       Bazel.CallGraph (Bazel.graph_result id name path g) !! caller = Some callees →
       NoDup callees).
Proof.
  intros H.
  assert (NoDup ["example.com/app.helper"; "example.com/app.helper"]) as Hnd.
  { apply (H Samples.graph_two_sites "" "" "" "example.com/app.main"). reflexivity. }
  apply NoDup_cons in Hnd as [Hnotin _]. apply Hnotin, list_elem_of_here.
Qed.

(** C3, amended. In the result of either analyzer, the [call_graph] entry
    of a caller name lists one callee name per retained out-edge of a node
    that carries that name, in edge order: a callee reached from several
    call sites is listed once per call site, just as [callEdges] (and
    [total_edges]) count it. *)
Theorem adjacency_lists_every_edge (g : Graph) (id name path : string) :
  (∀ caller (callees : list string),
     Bazel.CallGraph (Bazel.graph_result id name path g) !! caller = Some callees →
     ∃ fn node, (Some fn, Some node) ∈ g ∧ func_name fn = caller ∧
                callees = callee_names (node_Out node) ∧ callees ≠ []) ∧
  Bazel.TotalEdges (Bazel.graph_result id name path g) = length (retained_edges g) ∧
  (∀ caller (callees : list string),
     Workspace.CallGraph (Workspace.graph_result id name path g) !! caller = Some callees →
     ∃ fn node, (Some fn, Some node) ∈ g ∧ func_name fn = caller ∧
                callees = callee_names (node_Out node) ∧ callees ≠ [] ∧
                callees = (Workspace.fi_Name ∘ Workspace.Callee ∘ Workspace.edge_of) <$>
                            entry_edges (Some fn, Some node)) ∧
  Workspace.CallEdges (Workspace.graph_result id name path g) =
    Workspace.edge_of <$> (g ≫= entry_edges) ∧
  Workspace.TotalEdges (Workspace.graph_result id name path g) = length (retained_edges g).
Proof.
  rewrite bazel_graph_result, workspace_graph_result.
  cbn [Bazel.CallGraph Bazel.TotalEdges Workspace.CallGraph Workspace.CallEdges
       Workspace.TotalEdges].
  split_and!; try done.
  - apply lookup_callers.
  - intros caller callees (fn & node & ? & ? & Hc & ?)%lookup_callers.
    exists fn, node. split_and!; try done.
    rewrite Hc. symmetry. apply entry_edges_callee_names.
Qed.

Lemma adjacency_lists_every_edge_witness :
  Bazel.CallGraph (Bazel.graph_result "" "" "" Samples.graph_two_sites)
    !! "example.com/app.main" =
    Some ["example.com/app.helper"; "example.com/app.helper"] ∧
  ∃ fn node, (Some fn, Some node) ∈ Samples.graph_two_sites ∧
             func_name fn = "example.com/app.main" ∧
             ["example.com/app.helper"; "example.com/app.helper"] =
               callee_names (node_Out node).
Proof.
  split; [reflexivity|].
  destruct (adjacency_lists_every_edge Samples.graph_two_sites "" "" "") as (Hbazel & _).
  destruct (Hbazel "example.com/app.main"
              ["example.com/app.helper"; "example.com/app.helper"] eq_refl)
    as (fn & node & Hin & Hname & Hcallees & _).
  by exists fn, node.
Defined.

Lemma functions_dom g fn node callee :
  (Some fn, Some node) ∈ g → callee ∈ omap retained_callee (node_Out node) →
  func_name fn ∈ dom (list_to_map (reverse (g ≫= Workspace.entry_functions))
                        : gmap string Workspace.FunctionInfo) ∧
  func_name callee ∈ dom (list_to_map (reverse (g ≫= Workspace.entry_functions))
                            : gmap string Workspace.FunctionInfo).
Proof.
  intros Hentry Hcallee. rewrite dom_list_to_map_L, fmap_reverse.
  rewrite !elem_of_list_to_set, !elem_of_reverse, !list_elem_of_fmap.
  split.
  - exists (Workspace.keyed fn). split; [by rewrite keyed_eq|].
    apply list_elem_of_bind. exists (Some fn, Some node). split; [|done].
    apply list_elem_of_here.
  - exists (Workspace.keyed callee). split; [by rewrite keyed_eq|].
    apply list_elem_of_bind. exists (Some fn, Some node). split; [|done].
    apply list_elem_of_further, list_elem_of_fmap. by exists callee.
Qed.

(** C10, as stated, fails: two functions that share a qualified name (two
    methods [Close] of one package), each with an outgoing edge, count as
    one in [total_functions]. *)
Lemma total_functions_counterexample :
  ¬ (∀ (g : Graph) (id name path : string),
       Bazel.TotalFuncs (Bazel.graph_result id name path g) =
         length (callers_with_edges g)).
Proof.
  intros H. specialize (H Samples.graph_two_methods "" "" ""). vm_compute in H.
  discriminate.
Qed.

(** C10, amended. [total_functions] is the number of keys of [call_graph],
    that is the number of distinct qualified names of callers with at least
    one retained outgoing edge; it equals the number of such caller
    functions when their qualified names are pairwise distinct.  A name
    whose nodes have no retained outgoing edge is no key of [call_graph]
    and is not counted, although the workspace analyzer records every
    caller and callee in [functions]. *)
Theorem total_functions_counts_caller_names (g : Graph) (id name path : string) :
  let b := Bazel.graph_result id name path g in
  let w := Workspace.graph_result id name path g in
  (Bazel.TotalFuncs b = size (dom (Bazel.CallGraph b)) ∧
   Bazel.TotalFuncs b = size (list_to_set (callers_with_edges g).*1 : gset string) ∧
   (∀ n, n ∈ dom (Bazel.CallGraph b) ↔
         ∃ fn node, (Some fn, Some node) ∈ g ∧ func_name fn = n ∧
                    callee_names (node_Out node) ≠ []) ∧
   (NoDup (callers_with_edges g).*1 →
    Bazel.TotalFuncs b = length (callers_with_edges g))) ∧
  (Workspace.TotalFuncs w = size (dom (Workspace.CallGraph w)) ∧
   Workspace.TotalFuncs w = size (list_to_set (callers_with_edges g).*1 : gset string) ∧
   (∀ n, n ∈ dom (Workspace.CallGraph w) ↔
         ∃ fn node, (Some fn, Some node) ∈ g ∧ func_name fn = n ∧
                    callee_names (node_Out node) ≠ []) ∧
   (NoDup (callers_with_edges g).*1 →
    Workspace.TotalFuncs w = length (callers_with_edges g)) ∧
   (∀ fn node callee,
      (Some fn, Some node) ∈ g → callee ∈ omap retained_callee (node_Out node) →
      func_name fn ∈ dom (Workspace.Functions w) ∧
      func_name callee ∈ dom (Workspace.Functions w))).
Proof.
  intros b w. subst b w. rewrite bazel_graph_result, workspace_graph_result.
  cbn [Bazel.CallGraph Bazel.TotalFuncs Workspace.CallGraph Workspace.TotalFuncs
       Workspace.Functions].
  assert (∀ n, n ∈ dom (list_to_map (reverse (callers_with_edges g))
                          : gmap string (list string)) ↔
               ∃ fn node, (Some fn, Some node) ∈ g ∧ func_name fn = n ∧
                          callee_names (node_Out node) ≠ []) as Hkeys.
  { intros n. by rewrite dom_callers, elem_of_list_to_set, elem_of_caller_names. }
  assert (NoDup (callers_with_edges g).*1 →
          size (list_to_map (reverse (callers_with_edges g))
                  : gmap string (list string)) = length (callers_with_edges g)) as Hnd.
  { intros Hnd. rewrite size_callers, size_list_to_set by done. apply length_fmap. }
  split; split_and!; try done.
  - by rewrite size_dom.
  - apply size_callers.
  - by rewrite size_dom.
  - apply size_callers.
  - apply functions_dom.
Qed.

(** One function calling itself: one function, one edge. *)
Lemma total_functions_counts_caller_names_witness :
  NoDup (callers_with_edges Samples.graph_recursive).*1 ∧
  Bazel.TotalFuncs (Bazel.graph_result "" "" "" Samples.graph_recursive) = 1 ∧
  Workspace.TotalFuncs (Workspace.graph_result "" "" "" Samples.graph_recursive) = 1.
Proof.
  assert (NoDup (callers_with_edges Samples.graph_recursive).*1) as Hnd.
  { apply NoDup_singleton. }
  split; [exact Hnd|].
  destruct (total_functions_counts_caller_names Samples.graph_recursive "" "" "")
    as ((_ & _ & _ & Hb) & (_ & _ & _ & Hw & _)).
  split; [exact (Hb Hnd) | exact (Hw Hnd)].
Defined.

Example recursive_scenario :
  Bazel.graph_result "" "" "" Samples.graph_recursive =
    {| Bazel.PackageID := ""; Bazel.PackageName := ""; Bazel.ImportPath := "";
       Bazel.CallGraph := {[ "example.com/app.f" := ["example.com/app.f"] ]};
       Bazel.TotalFuncs := 1; Bazel.TotalEdges := 1; Bazel.Algorithm := "VTA" |}.
Proof. reflexivity. Qed.

Example two_sites_workspace :
  Workspace.CallGraph (Workspace.graph_result "" "" "" Samples.graph_two_sites)
    !! "example.com/app.main" =
    Some ["example.com/app.helper"; "example.com/app.helper"] ∧
  "example.com/app.helper" ∈
    dom (Workspace.Functions (Workspace.graph_result "" "" "" Samples.graph_two_sites)) ∧
  Workspace.CallGraph (Workspace.graph_result "" "" "" Samples.graph_two_sites)
    !! "example.com/app.helper" = None.
Proof. split_and!; [reflexivity | by vm_compute | reflexivity]. Qed.

End CallGraphFacts.

(* ===================================================================== *)
(** ** Further facts about the merger                                     *)
(* ===================================================================== *)

Section MergerMoreFacts.
Import Merger MergerSpec.
#[local] Set Warnings "-clear-no-such-hyp".

Implicit Types (st : merge_state) (n : json) (l : string) (w : World)
  (seen : gset string) (ns : list json).

Lemma node_loop_keep ns st seen :
  marks st seen →
  mergedNodes (foldl process_node st ns) = mergedNodes st ++ keep seen ns.
Proof.
  revert st seen. induction ns as [|n ns IH]; intros st seen Hst; simpl.
  - by rewrite app_nil_r.
  - destruct (label_of n) as [l|] eqn:Hl.
    + rewrite (process_node_labeled _ _ _ Hl).
      destruct (default false (seenLabels st !! l)) eqn:Hs.
      * rewrite decide_True by (by apply Hst). by apply IH.
      * rewrite decide_False by (intros ?%Hst; congruence).
        rewrite (IH _ ({[l]} ∪ seen)); [simpl; by rewrite <- app_assoc|].
        intros l'. simpl. destruct (decide (l = l')) as [->|Hne].
        -- rewrite lookup_insert_eq. simpl. set_solver.
        -- rewrite lookup_insert_ne by done. rewrite (Hst l'). set_solver.
    + rewrite (process_node_unlabeled _ _ Hl). unfold append_node.
      rewrite (IH _ seen); [simpl; by rewrite <- app_assoc|]. exact Hst.
Qed.

Lemma merged_keep ns : merged ns = keep ∅ ns.
Proof.
  unfold merged. rewrite (node_loop_keep ns initial_state ∅); [done|].
  intros l. simpl. rewrite lookup_empty. simpl. set_solver.
Qed.

Lemma labels_app ns ms : labels (ns ++ ms) = labels ns ∪ labels ms.
Proof. unfold labels. rewrite omap_app. set_solver. Qed.

Lemma labels_cons_Some n ns l : label_of n = Some l → labels (n :: ns) = {[l]} ∪ labels ns.
Proof. intros Hl. unfold labels. simpl. rewrite Hl. set_solver. Qed.

Lemma labels_cons_None n ns : label_of n = None → labels (n :: ns) = labels ns.
Proof. intros Hl. unfold labels. simpl. by rewrite Hl. Qed.

Lemma keep_app seen ns ms :
  keep seen (ns ++ ms) = keep seen ns ++ keep (labels ns ∪ seen) ms.
Proof.
  revert seen. induction ns as [|n ns IH]; intros seen; simpl.
  - unfold labels. simpl. by rewrite (left_id_L ∅ (∪)).
  - destruct (label_of n) as [l|] eqn:Hl.
    + rewrite (labels_cons_Some _ _ _ Hl). case_decide as Hin.
      * rewrite IH. do 2 f_equal. set_solver.
      * rewrite IH. simpl. do 3 f_equal. set_solver.
    + rewrite (labels_cons_None _ _ Hl), IH. done.
Qed.

Lemma keep_sublist seen ns : keep seen ns `sublist_of` ns.
Proof.
  revert seen. induction ns as [|n ns IH]; intros seen; simpl; [done|].
  destruct (label_of n) as [l|].
  - case_decide; [by apply sublist_cons | by apply sublist_skip].
  - by apply sublist_skip.
Qed.

Lemma labels_keep seen ns : labels (keep seen ns) ∪ seen = labels ns ∪ seen.
Proof.
  revert seen. induction ns as [|n ns IH]; intros seen; simpl; [done|].
  destruct (label_of n) as [l|] eqn:Hl.
  - rewrite (labels_cons_Some _ _ _ Hl). case_decide as Hin.
    + rewrite IH. set_solver.
    + rewrite (labels_cons_Some _ _ _ Hl). specialize (IH ({[l]} ∪ seen)).
      revert IH. generalize (labels (keep ({[l]} ∪ seen) ns)), (labels ns).
      intros A B IH. set_unfold. intros x. specialize (IH x). tauto.
  - by rewrite !(labels_cons_None _ _ Hl), IH.
Qed.

Lemma keep_keep seen seen' ns : seen' ⊆ seen → keep seen (keep seen' ns) = keep seen ns.
Proof.
  revert seen seen'. induction ns as [|n ns IH]; intros seen seen' Hsub; simpl; [done|].
  destruct (label_of n) as [l|] eqn:Hl.
  - destruct (decide (l ∈ seen')) as [Hin'|Hnin'].
    + rewrite decide_True by set_solver. by apply IH.
    + simpl. rewrite Hl. case_decide.
      * apply IH. set_solver.
      * f_equal. apply IH. set_solver.
  - simpl. rewrite Hl. f_equal. by apply IH.
Qed.

(** Merging merged lists gives what merging the lists themselves gives. *)
Lemma merged_of_merged (parts : list (list json)) :
  merged (parts ≫= merged) = merged (concat parts).
Proof.
  rewrite !merged_keep. generalize (∅ : gset string) as seen.
  induction parts as [|ns parts IH]; intros seen; [done|].
  cbn [mbind list_bind concat]. rewrite !keep_app, merged_keep.
  rewrite (keep_keep seen ∅) by set_solver. f_equal.
  fold (parts ≫= merged). rewrite IH. f_equal.
  pose proof (labels_keep ∅ ns) as H. set_solver.
Qed.

Lemma merge_ok_written w (outputFile : string) (inputFiles : list string) :
  mkdir_ok w outputFile = true → write_ok w outputFile = true →
  mergeJSONFiles w outputFile inputFiles =
    (None, written w outputFile (merged (input_nodes w inputFiles)),
     inputFiles ≫= warning_of w).
Proof. apply mergeJSONFiles_ok. Qed.

Lemma nodes_of_written_eq w (f : string) ns : nodes_of (written w f ns) f = ns.
Proof. unfold nodes_of, written. simpl. by rewrite lookup_insert_eq. Qed.

Lemma nodes_of_written_ne w (f g : string) ns :
  f ≠ g → nodes_of (written w f ns) g = nodes_of w g.
Proof. intros Hne. unfold nodes_of, written. simpl. by rewrite lookup_insert_ne. Qed.

Lemma input_nodes_written w (f : string) ns (inputFiles : list string) :
  f ∉ inputFiles → input_nodes (written w f ns) inputFiles = input_nodes w inputFiles.
Proof.
  induction inputFiles as [|g gs IH]; intros Hnotin; [done|].
  rewrite !input_nodes_cons, IH by set_solver.
  rewrite nodes_of_written_ne; [done|]. set_solver.
Qed.

(** The merger neither invents nor reorders records: what it writes is a
    subsequence of the records of its inputs, taken in argument order. *)
Theorem merged_output_is_subsequence w (outputFile : string) (inputFiles : list string) :
  mkdir_ok w outputFile = true → write_ok w outputFile = true →
  ∃ w' log out_nodes,
    mergeJSONFiles w outputFile inputFiles = (None, w', log) ∧
    files w' !! outputFile = Some (Doc out_nodes) ∧
    out_nodes `sublist_of` input_nodes w inputFiles.
Proof.
  intros Hm Hw. eexists _, _, _. split; [by apply merge_ok_written|].
  simpl. rewrite lookup_insert_eq. split; [done|].
  rewrite merged_keep. apply keep_sublist.
Qed.

Lemma merged_output_is_subsequence_witness :
  mkdir_ok world_AB "out.json" = true ∧ write_ok world_AB "out.json" = true ∧
  ∃ w' log out_nodes,
    mergeJSONFiles world_AB "out.json" ["B.json"; "A.json"] = (None, w', log) ∧
    files w' !! "out.json" = Some (Doc out_nodes) ∧
    out_nodes `sublist_of`
      [record_B; record_plain; record_blank; JNumber "7";
       record_A; record_plain; JNumber "7"].
Proof.
  split; [reflexivity|]. split; [reflexivity|].
  apply (merged_output_is_subsequence world_AB "out.json" ["B.json"; "A.json"]);
    reflexivity.
Defined.

(** No label is lost and none is made up: the labels of the output are
    the labels of the inputs. *)
Theorem merged_output_keeps_every_label w (outputFile : string)
    (inputFiles : list string) :
  mkdir_ok w outputFile = true → write_ok w outputFile = true →
  ∃ w' log out_nodes,
    mergeJSONFiles w outputFile inputFiles = (None, w', log) ∧
    files w' !! outputFile = Some (Doc out_nodes) ∧
    ∀ l, l ∈ omap label_of out_nodes ↔ l ∈ omap label_of (input_nodes w inputFiles).
Proof.
  intros Hm Hw. eexists _, _, _. split; [by apply merge_ok_written|].
  simpl. rewrite lookup_insert_eq. split; [done|].
  intros l. rewrite merged_keep.
  pose proof (labels_keep ∅ (input_nodes w inputFiles)) as Hlab.
  rewrite !(right_id_L ∅ (∪)) in Hlab. unfold labels in Hlab.
  by rewrite <- !(elem_of_list_to_set (C:=gset string)), Hlab.
Qed.

Lemma merged_output_keeps_every_label_witness :
  mkdir_ok world_AB "out.json" = true ∧ write_ok world_AB "out.json" = true ∧
  ∃ w' log out_nodes,
    mergeJSONFiles world_AB "out.json" ["A.json"; "B.json"] = (None, w', log) ∧
    files w' !! "out.json" = Some (Doc out_nodes) ∧
    "//x:a" ∈ omap label_of out_nodes.
Proof.
  split; [reflexivity|]. split; [reflexivity|].
  destruct (merged_output_keeps_every_label world_AB "out.json" ["A.json"; "B.json"]
              eq_refl eq_refl) as (w' & log & out_nodes & Hrun & Hout & Hlab).
  exists w', log, out_nodes. split; [exact Hrun|]. split; [exact Hout|].
  apply Hlab. apply list_elem_of_here.
Defined.

(** Merging in two levels gives what merging in one level gives: the merge
    of the outputs of two merges holds the records of the merge of all
    their inputs. *)
Theorem merge_of_merges w (out1 out2 out3 : string) (inputsA inputsB : list string) :
  mkdir_ok w out1 = true → write_ok w out1 = true →
  mkdir_ok w out2 = true → write_ok w out2 = true →
  mkdir_ok w out3 = true → write_ok w out3 = true →
  out1 ∉ inputsB → out1 ≠ out2 →
  ∃ w1 log1 w2 log2 w3,
    mergeJSONFiles w out1 inputsA = (None, w1, log1) ∧
    mergeJSONFiles w1 out2 inputsB = (None, w2, log2) ∧
    mergeJSONFiles w2 out3 [out1; out2] = (None, w3, []) ∧
    files w3 !! out3 = Some (Doc (merged (input_nodes w (inputsA ++ inputsB)))).
Proof.
  intros Hm1 Hw1 Hm2 Hw2 Hm3 Hw3 Hnotin Hne.
  eexists _, _, _, _, _.
  split; [by apply merge_ok_written|].
  split; [by apply merge_ok_written|].
  rewrite (merge_ok_written _ out3) by done.
  split.
  - f_equal. unfold warning_of. simpl.
    rewrite lookup_insert_ne, lookup_insert_eq, lookup_insert_eq by done. done.
  - unfold written at 1. cbn [files]. rewrite lookup_insert_eq. do 2 f_equal.
    rewrite (input_nodes_cons _ out1), (input_nodes_cons _ out2).
    change (input_nodes _ []) with (@nil json). rewrite app_nil_r.
    rewrite nodes_of_written_ne, !nodes_of_written_eq by done.
    rewrite input_nodes_written by done.
    pose proof (merged_of_merged
                  [input_nodes w inputsA; input_nodes w inputsB]) as H.
    simpl in H. rewrite !app_nil_r in H. by rewrite input_nodes_app.
Qed.

Lemma merge_of_merges_witness :
  ("left.json" ∉ ["B.json"; "C.json"]) ∧ ("left.json" ≠ "right.json") ∧
  ∃ w1 log1 w2 log2 w3,
    mergeJSONFiles world_AB "left.json" ["A.json"] = (None, w1, log1) ∧
    mergeJSONFiles w1 "right.json" ["B.json"; "C.json"] = (None, w2, log2) ∧
    mergeJSONFiles w2 "top.json" ["left.json"; "right.json"] = (None, w3, []) ∧
    files w3 !! "top.json" =
      Some (Doc [record_A; record_plain; JNumber "7";
                 record_plain; record_blank; JNumber "7"]).
Proof.
  assert ("left.json" ∉ ["B.json"; "C.json"]) as Hnotin.
  { intros Hin. repeat (apply elem_of_cons in Hin as [Heq|Hin]; [discriminate|]).
    by apply elem_of_nil in Hin. }
  split; [exact Hnotin|]. split; [discriminate|].
  destruct (merge_of_merges world_AB "left.json" "right.json" "top.json"
              ["A.json"] ["B.json"; "C.json"]
              eq_refl eq_refl eq_refl eq_refl eq_refl eq_refl Hnotin)
    as (w1 & log1 & w2 & log2 & w3 & H1 & H2 & H3 & H4); [discriminate|].
  exists w1, log1, w2, log2, w3. split_and!; [exact H1 | exact H2 | exact H3 |].
  rewrite H4. reflexivity.
Defined.

(** Appending inputs never changes what was already emitted: the output
    for a list of inputs is a prefix of the output for any extension of
    the list. *)
Theorem merged_output_grows_by_prefix w (out1 out2 : string)
    (inputFiles more : list string) :
  mkdir_ok w out1 = true → write_ok w out1 = true →
  mkdir_ok w out2 = true → write_ok w out2 = true →
  ∃ w1 log1 w2 log2 nodes1 nodes2,
    mergeJSONFiles w out1 inputFiles = (None, w1, log1) ∧
    mergeJSONFiles w out2 (inputFiles ++ more) = (None, w2, log2) ∧
    files w1 !! out1 = Some (Doc nodes1) ∧
    files w2 !! out2 = Some (Doc nodes2) ∧
    nodes1 `prefix_of` nodes2.
Proof.
  intros Hm1 Hw1 Hm2 Hw2. eexists _, _, _, _, _, _.
  split; [by apply merge_ok_written|]. split; [by apply merge_ok_written|].
  simpl. rewrite !lookup_insert_eq. split; [done|]. split; [done|].
  rewrite input_nodes_app, !merged_keep, keep_app. by eexists.
Qed.

Lemma merged_output_grows_by_prefix_witness :
  ∃ w1 log1 w2 log2 nodes1 nodes2,
    mergeJSONFiles world_AB "one.json" ["A.json"] = (None, w1, log1) ∧
    mergeJSONFiles world_AB "two.json" (["A.json"] ++ ["B.json"]) = (None, w2, log2) ∧
    files w1 !! "one.json" = Some (Doc nodes1) ∧
    files w2 !! "two.json" = Some (Doc nodes2) ∧
    nodes1 `prefix_of` nodes2.
Proof.
  apply (merged_output_grows_by_prefix world_AB "one.json" "two.json"
           ["A.json"] ["B.json"]); reflexivity.
Defined.



(** When no input yields a record (each is missing, unreadable, malformed
    or empty), the merger still writes an output, with an empty node list. *)
Theorem merge_of_nothing w (outputFile : string) (inputFiles : list string) :
  mkdir_ok w outputFile = true → write_ok w outputFile = true →
  (∀ f, f ∈ inputFiles → nodes_of w f = []) →
  ∃ w' log,
    main w ("merge_json_deps" :: outputFile :: inputFiles) = (0, w', log) ∧
    files w' !! outputFile = Some (Doc []).
Proof.
  intros Hm Hw Hempty. unfold main. rewrite merge_ok_written by done.
  eexists _, _. split; [done|]. simpl. rewrite lookup_insert_eq. do 2 f_equal.
  assert (input_nodes w inputFiles = []) as ->; [|done].
  induction inputFiles as [|f fs IH]; [done|].
  rewrite input_nodes_cons, Hempty, IH by set_solver. done.
Qed.

Lemma merge_of_nothing_witness :
  ∃ w' log,
    main world_AB ["merge_json_deps"; "out.json"; "missing.json"; "C.json"; "D.json"] =
      (0, w', log) ∧
    files w' !! "out.json" = Some (Doc []).
Proof.
  apply (merge_of_nothing world_AB "out.json" ["missing.json"; "C.json"; "D.json"]);
    [reflexivity | reflexivity |].
  intros f Hin.
  repeat (apply elem_of_cons in Hin as [->|Hin]; [reflexivity|]).
  by apply elem_of_nil in Hin.
Defined.

End MergerMoreFacts.

(* ===================================================================== *)
(** ** Further facts about the call-graph analyzers                       *)
(* ===================================================================== *)

Section CallGraphMoreFacts.
Import CallGraph CallGraphSpec.
#[local] Set Warnings "-clear-no-such-hyp".

Implicit Types (g : Graph) (fn : Function) (node : Node).


Lemma elem_of_entry_functions g (k : string) (v : Workspace.FunctionInfo) :
  (k, v) ∈ g ≫= Workspace.entry_functions →
  ∃ f, v = Workspace.info_of f ∧ k = func_name f.
Proof.
  intros (entry & Hin & Hentry)%list_elem_of_bind.
  destruct entry as [[fn|] [node|]]; simpl in Hin; try by apply elem_of_nil in Hin.
  apply elem_of_cons in Hin as [Heq|Hin].
  - exists fn. rewrite keyed_eq in Heq. by injection Heq as -> ->.
  - apply list_elem_of_fmap in Hin as (callee & Heq & _).
    exists callee. rewrite keyed_eq in Heq. by injection Heq as -> ->.
Qed.

Lemma elem_of_retained_edges g fn (callee : Function) :
  (fn, callee) ∈ retained_edges g ↔
  ∃ node, (Some fn, Some node) ∈ g ∧ callee ∈ omap retained_callee (node_Out node).
Proof.
  unfold retained_edges. rewrite list_elem_of_bind. split.
  - intros (entry & Hin & Hentry).
    destruct entry as [[fn'|] [node|]]; simpl in Hin; try by apply elem_of_nil in Hin.
    apply list_elem_of_fmap in Hin as (c & [= -> ->] & Hc). by exists node.
  - intros (node & Hentry & Hc). exists (Some fn, Some node). split; [|done].
    simpl. apply list_elem_of_fmap. by exists callee.
Qed.

(** The result of the workspace script is closed: [total_edges] is the
    length of [call_edges]; every entry of [functions] is filed under its
    own name; the caller and the callee of every call edge, every key of
    [call_graph] and every callee name listed there are keys of
    [functions]; and the caller of every call edge is a key of
    [call_graph]. *)
Theorem workspace_result_closed g (id name path : string) :
  let w := Workspace.graph_result id name path g in
  Workspace.TotalEdges w = length (Workspace.CallEdges w) ∧
  (∀ k v, Workspace.Functions w !! k = Some v → Workspace.fi_Name v = k) ∧
  (∀ e, e ∈ Workspace.CallEdges w →
        Workspace.fi_Name (Workspace.Caller e) ∈ dom (Workspace.Functions w) ∧
        Workspace.fi_Name (Workspace.Callee e) ∈ dom (Workspace.Functions w) ∧
        Workspace.fi_Name (Workspace.Caller e) ∈ dom (Workspace.CallGraph w)) ∧
  (∀ caller (callees : list string),
     Workspace.CallGraph w !! caller = Some callees →
     caller ∈ dom (Workspace.Functions w) ∧
     ∀ c, c ∈ callees → c ∈ dom (Workspace.Functions w)).
Proof.
  intros w. subst w. rewrite workspace_graph_result.
  cbn [Workspace.TotalEdges Workspace.CallEdges Workspace.Functions Workspace.CallGraph].
  split_and!.
  - by rewrite length_fmap.
  - intros k v Hkv. apply elem_of_list_to_map_2 in Hkv. rewrite elem_of_reverse in Hkv.
    apply elem_of_entry_functions in Hkv as (f & -> & ->). apply info_of_name.
  - intros e ([fn callee] & -> & Hin)%list_elem_of_fmap.
    apply elem_of_retained_edges in Hin as (node & Hentry & Hc).
    unfold Workspace.edge_of. cbn [Workspace.Caller Workspace.Callee fst snd].
    rewrite !info_of_name.
    destruct (functions_dom g fn node callee Hentry Hc) as [Hfn Hcallee].
    split_and!; [done | done |].
    rewrite dom_callers, elem_of_list_to_set. apply elem_of_caller_names.
    exists fn, node. split_and!; [done | done |].
    unfold callee_names. intros Hnil. apply fmap_nil_inv in Hnil.
    rewrite Hnil in Hc. by apply elem_of_nil in Hc.
  - intros caller callees (fn & node & Hentry & <- & -> & Hne)%lookup_callers.
    assert (∃ c0, c0 ∈ omap retained_callee (node_Out node)) as [c0 Hc0].
    { unfold callee_names in Hne.
      destruct (omap retained_callee (node_Out node)) as [|c0 cs]; [done|].
      exists c0. apply list_elem_of_here. }
    split; [apply (functions_dom g fn node c0 Hentry Hc0)|].
    intros c (callee & -> & Hc)%list_elem_of_fmap.
    apply (functions_dom g fn node callee Hentry Hc).
Qed.

Lemma workspace_result_closed_witness :
  Workspace.CallGraph (Workspace.graph_result "" "" "" Samples.graph_two_sites)
    !! "example.com/app.main" =
    Some ["example.com/app.helper"; "example.com/app.helper"] ∧
  "example.com/app.helper" ∈
    dom (Workspace.Functions (Workspace.graph_result "" "" "" Samples.graph_two_sites)).
Proof.
  split; [reflexivity|].
  destruct (workspace_result_closed Samples.graph_two_sites "" "" "")
    as (_ & _ & _ & Hkeys).
  destruct (Hkeys "example.com/app.main"
              ["example.com/app.helper"; "example.com/app.helper"] eq_refl)
    as [_ Hcallees].
  apply Hcallees, list_elem_of_here.
Defined.

(** **** Sizes *)

Lemma adjacency_size_insert (m : gmap string (list string)) (k : string)
    (v : list string) :
  adjacency_size (<[k := v]> m) ≤ length v + adjacency_size m ∧
  (m !! k = None → adjacency_size (<[k := v]> m) = length v + adjacency_size m).
Proof.
  unfold adjacency_size. destruct (m !! k) as [x|] eqn:Hk.
  - split; [|done].
    rewrite <- insert_delete_eq, map_to_list_insert by apply lookup_delete_eq.
    rewrite <- (map_to_list_delete m k x Hk). simpl. lia.
  - rewrite map_to_list_insert by done. simpl. split; [lia | done].
Qed.

Lemma adjacency_size_list_to_map (kvs : list (string * list string)) :
  adjacency_size (list_to_map kvs) ≤ sum_list_with (λ kv, length kv.2) kvs ∧
  (NoDup kvs.*1 →
   adjacency_size (list_to_map kvs) = sum_list_with (λ kv, length kv.2) kvs).
Proof.
  induction kvs as [|[k v] kvs [IHle IHeq]]; [done|].
  cbn [list_to_map foldr fmap list_fmap sum_list_with fst snd].
  destruct (adjacency_size_insert (list_to_map kvs) k v) as [Hle Heq]. split.
  - simpl in *. lia.
  - intros [Hk Hnd]%NoDup_cons. simpl in *.
    rewrite Heq, IHeq; [done | done |].
    by apply not_elem_of_list_to_map_1.
Qed.

Lemma callers_edge_count g :
  sum_list_with (λ kv : string * list string, length kv.2) (callers_with_edges g) =
    length (retained_edges g).
Proof.
  unfold callers_with_edges, retained_edges.
  induction g as [|entry g IH]; [done|].
  cbn [omap list_omap mbind list_bind]. rewrite length_app, <- IH.
  destruct entry as [[fn|] [node|]]; try done.
  cbn [entry_caller entry_edges]. rewrite length_fmap.
  unfold callee_names.
  destruct (omap retained_callee (node_Out node)) as [|c cs]; [done|].
  cbn [fmap list_fmap sum_list_with snd]. simpl. by rewrite length_fmap.
Qed.

Lemma adjacency_bounds g :
  let m : gmap string (list string) := list_to_map (reverse (callers_with_edges g)) in
  size m ≤ adjacency_size m ∧
  adjacency_size m ≤ length (retained_edges g) ∧
  (NoDup (callers_with_edges g).*1 → adjacency_size m = length (retained_edges g)).
Proof.
  intros m. subst m.
  destruct (adjacency_size_list_to_map (reverse (callers_with_edges g))) as [Hle Heq].
  rewrite sum_list_with_reverse, callers_edge_count in Hle, Heq.
  split_and!; [|done|].
  - unfold adjacency_size. rewrite <- length_map_to_list.
    assert (∀ k v, (k, v) ∈ map_to_list
      (list_to_map (reverse (callers_with_edges g)) : gmap string (list string)) →
      v ≠ []) as Hkvs.
    { intros k v Hin%elem_of_map_to_list.
      by destruct (lookup_callers g k v Hin) as (? & ? & ? & ? & ? & ?). }
    revert Hkvs. generalize (map_to_list
      (list_to_map (reverse (callers_with_edges g)) : gmap string (list string))).
    intros kvs Hkvs. induction kvs as [|[k v] kvs IH]; [done|].
    assert (v ≠ []) as Hv by (apply (Hkvs k), list_elem_of_here).
    assert (length kvs ≤ sum_list_with (λ kv, length kv.2) kvs) as Hrest.
    { apply IH. intros i x Hin. apply (Hkvs i). by apply list_elem_of_further. }
    destruct v; [done|]. simpl in *. lia.
  - intros Hnd. apply Heq. by rewrite fmap_reverse, reverse_Permutation.
Qed.

(** The adjacency map never lists more callee names than [total_edges]
    counts, and lists exactly as many when the callers that have edges
    carry pairwise distinct names; [total_functions] never exceeds the
    number of listed names. *)
Theorem adjacency_within_total_edges g (id name path : string) :
  let b := Bazel.graph_result id name path g in
  Bazel.TotalFuncs b ≤ adjacency_size (Bazel.CallGraph b) ∧
  adjacency_size (Bazel.CallGraph b) ≤ Bazel.TotalEdges b ∧
  (NoDup (callers_with_edges g).*1 →
   adjacency_size (Bazel.CallGraph b) = Bazel.TotalEdges b).
Proof.
  intros b. subst b. rewrite bazel_graph_result.
  cbn [Bazel.TotalFuncs Bazel.CallGraph Bazel.TotalEdges]. apply adjacency_bounds.
Qed.

Lemma adjacency_within_total_edges_witness :
  NoDup (callers_with_edges Samples.graph_two_sites).*1 ∧
  adjacency_size (Bazel.CallGraph (Bazel.graph_result "" "" "" Samples.graph_two_sites)) =
    Bazel.TotalEdges (Bazel.graph_result "" "" "" Samples.graph_two_sites).
Proof.
  assert (NoDup (callers_with_edges Samples.graph_two_sites).*1) as Hnd.
  { apply NoDup_singleton. }
  split; [exact Hnd|].
  apply (adjacency_within_total_edges Samples.graph_two_sites "" "" ""). exact Hnd.
Defined.

(** With colliding caller names the adjacency map loses edges that
    [total_edges] still counts. *)
Example adjacency_loses_edges_on_collision :
  adjacency_size (Bazel.CallGraph (Bazel.graph_result "" "" "" Samples.graph_two_methods)) = 1 ∧
  Bazel.TotalEdges (Bazel.graph_result "" "" "" Samples.graph_two_methods) = 2.
Proof. split; reflexivity. Qed.

(** **** Name collisions *)

Lemma callers_with_edges_app g1 g2 :
  callers_with_edges (g1 ++ g2) = callers_with_edges g1 ++ callers_with_edges g2.
Proof. apply omap_app. Qed.

Lemma lookup_last_caller g1 g2 fn node :
  callee_names (node_Out node) ≠ [] →
  (∀ fn' node', (Some fn', Some node') ∈ g2 → func_name fn' = func_name fn →
                callee_names (node_Out node') = []) →
  (list_to_map (reverse (callers_with_edges (g1 ++ (Some fn, Some node) :: g2)))
     : gmap string (list string)) !! func_name fn = Some (callee_names (node_Out node)).
Proof.
  intros Hne Hlater. rewrite callers_with_edges_app.
  assert (callers_with_edges ((Some fn, Some node) :: g2) =
            (func_name fn, callee_names (node_Out node)) :: callers_with_edges g2) as ->.
  { unfold callers_with_edges. cbn [omap list_omap].
    assert (entry_caller (Some fn, Some node) =
              Some (func_name fn, callee_names (node_Out node))) as ->; [|done].
    apply entry_caller_Some. by exists fn, node. }
  rewrite reverse_app, reverse_cons, !list_to_map_app.
  apply lookup_union_Some_l. rewrite lookup_union_r.
  - simpl. apply lookup_insert_eq.
  - apply not_elem_of_list_to_map_1. rewrite fmap_reverse, elem_of_reverse.
    intros (fn' & node' & Hin & Hname & Hedges)%elem_of_caller_names.
    by apply Hedges, (Hlater fn' node').
Qed.

(** When several functions share a qualified name, the adjacency map keeps
    the callee list of the last of them that has a retained edge: a later
    entry overwrites an earlier one, and a later entry without retained
    edges overwrites nothing. *)
Theorem last_caller_wins g1 g2 fn node (id name path : string) :
  callee_names (node_Out node) ≠ [] →
  (∀ fn' node', (Some fn', Some node') ∈ g2 → func_name fn' = func_name fn →
                callee_names (node_Out node') = []) →
  Bazel.CallGraph (Bazel.graph_result id name path (g1 ++ (Some fn, Some node) :: g2))
    !! func_name fn = Some (callee_names (node_Out node)) ∧
  Workspace.CallGraph (Workspace.graph_result id name path (g1 ++ (Some fn, Some node) :: g2))
    !! func_name fn = Some (callee_names (node_Out node)).
Proof.
  intros Hne Hlater. rewrite bazel_graph_result, workspace_graph_result.
  cbn [Bazel.CallGraph Workspace.CallGraph]. split; by apply lookup_last_caller.
Qed.

(** **** Skipped entries *)

Lemma retained_callee_clean (callees : list Function) :
  omap retained_callee
    ((λ callee, Some {| edge_Callee := Some (Some callee) |}) <$> callees) = callees.
Proof. induction callees as [|c cs IH]; [done|]. cbn. by rewrite IH. Qed.

Lemma callers_with_edges_clean g : callers_with_edges (clean g) = callers_with_edges g.
Proof.
  unfold callers_with_edges, clean. induction g as [|entry g IH]; [done|].
  destruct entry as [[fn|] [node|]]; cbn [omap list_omap clean_entry]; try done.
  rewrite IH. unfold entry_caller, callee_names. cbn [node_Out].
  by rewrite retained_callee_clean.
Qed.

Lemma retained_edges_clean g : retained_edges (clean g) = retained_edges g.
Proof.
  unfold retained_edges, clean. induction g as [|entry g IH]; [done|].
  destruct entry as [[fn|] [node|]];
    cbn [omap list_omap clean_entry mbind list_bind entry_edges]; try done.
  rewrite IH. cbn [node_Out]. by rewrite retained_callee_clean.
Qed.

Lemma entry_functions_clean g :
  clean g ≫= Workspace.entry_functions = g ≫= Workspace.entry_functions.
Proof.
  unfold clean. induction g as [|entry g IH]; [done|].
  destruct entry as [[fn|] [node|]];
    cbn [omap list_omap clean_entry mbind list_bind Workspace.entry_functions app];
    try done.
  rewrite IH. cbn [node_Out]. by rewrite retained_callee_clean.
Qed.

(** What the loops skip never shows in a result: entries without a
    function or a node, nil edges and edges without a callee function can
    be dropped from the graph without a change to any field. *)
Theorem skipped_entries_never_count g (id name path : string) :
  Bazel.graph_result id name path (clean g) = Bazel.graph_result id name path g ∧
  Workspace.graph_result id name path (clean g) = Workspace.graph_result id name path g.
Proof.
  rewrite !bazel_graph_result, !workspace_graph_result.
  by rewrite callers_with_edges_clean, retained_edges_clean, entry_functions_clean.
Qed.

(** **** Exit status *)

Lemma writeResult_exit {R} (h : Host) (outputFile : string) (result : R) :
  exit_status (writeResult h outputFile result) = 0 ↔
  mkdir_ok h outputFile = true ∧ write_ok h outputFile = true.
Proof.
  unfold writeResult.
  destruct (mkdir_ok h outputFile), (write_ok h outputFile); simpl; split;
    (done || by intros [? ?]).
Qed.

(** Each analyzer ends with status 0 exactly when it is given three
    arguments, a packages file that can be read and parsed, and an output
    that can be written: a failed load, an empty analysis or a script that
    does not run never makes it fail. *)
Theorem analyzers_fail_only_on_io h (osArgs : list string) :
  (exit_status (Bazel.main h osArgs) = 0 ↔ inputs_ok h osArgs) ∧
  (exit_status (Workspace.main h osArgs) = 0 ↔ inputs_ok h osArgs) ∧
  (exit_status (Legacy.main h osArgs) = 0 ↔ inputs_ok h osArgs).
Proof.
  assert (∀ prog packagesFile outputFile response,
            read_packages_file h packagesFile = Some (Some response) →
            mkdir_ok h outputFile = true ∧ write_ok h outputFile = true ↔
            inputs_ok h [prog; packagesFile; outputFile]) as Hok.
  { intros prog packagesFile outputFile response Hread. split.
    - intros [Hm Hw]. by exists prog, packagesFile, outputFile, response.
    - by intros (? & ? & ? & ? & [= <- <- <-] & _ & ? & ?). }
  assert (∀ prog packagesFile outputFile,
            (read_packages_file h packagesFile = None ∨
             read_packages_file h packagesFile = Some None) →
            ¬ inputs_ok h [prog; packagesFile; outputFile]) as Hbad.
  { intros prog packagesFile outputFile Hread
      (? & ? & ? & ? & [= <- <- <-] & Hread' & _).
    destruct Hread; congruence. }
  assert (∀ l : list string, length l ≠ 3 → ¬ inputs_ok h l) as Hargs.
  { intros l Hlen (? & ? & ? & ? & -> & _). by apply Hlen. }
  unfold Bazel.main, Workspace.main, Legacy.main.
  destruct osArgs as [|prog [|packagesFile [|outputFile [|extra rest]]]];
    try (split_and!;
         (split; [by intros [=]
                 | intros Hin; exfalso; eapply Hargs; [|exact Hin]; simpl; lia])).
  destruct (read_packages_file h packagesFile) as [[response|]|] eqn:Hread;
    try (split_and!;
         (split; [by intros [=]
                 | intros Hin; exfalso; eapply Hbad; [|exact Hin]; by (left + right)])).
  split_and!.
  - destruct (Bazel.find_target (Packages response)) as [[targetPackage targetID] targetName].
    rewrite <- (Hok prog packagesFile outputFile response Hread).
    destruct (length (Bazel.load_packages h) =? 0); [apply writeResult_exit|].
    destruct (length (Bazel.filterValidPackages (Bazel.load_packages h)) =? 0);
      apply writeResult_exit.
  - destruct (Workspace.find_target (Packages response)) as [[targetID targetName] targetPkgPath].
    rewrite <- (Hok prog packagesFile outputFile response Hread). apply writeResult_exit.
  - destruct (Workspace.find_target (Packages response)) as [[targetID targetName] targetPkgPath].
    rewrite <- (Hok prog packagesFile outputFile response Hread). apply writeResult_exit.
Qed.

Lemma analyzers_fail_only_on_io_witness :
  exit_status (Bazel.main Samples.host_bare ["vta"; "packages.json"; "out.json"]) = 0 ∧
  ¬ inputs_ok Samples.host_bare ["vta"; "packages.json"].
Proof.
  destruct (analyzers_fail_only_on_io Samples.host_bare ["vta"; "packages.json"; "out.json"])
    as [[_ Hrun] _].
  destruct (analyzers_fail_only_on_io Samples.host_bare ["vta"; "packages.json"])
    as [[_ Hfail] _].
  split.
  - apply Hrun. by exists "vta", "packages.json", "out.json", Samples.response_empty.
  - intros Hin. apply Hfail in Hin. discriminate.
Defined.

Lemma last_caller_wins_witness :
  Bazel.CallGraph (Bazel.graph_result "" "" "" Samples.graph_two_methods)
    !! "example.com/app.Close" = Some ["example.com/app.shutdown"].
Proof.
  apply (last_caller_wins
           [(Some (Samples.in_app "Close"),
             Some {| node_Out := [Samples.call (Samples.in_app "flush")] |})]
           [(Some (Samples.in_app "flush"), Some {| node_Out := [] |});
            (Some (Samples.in_app "shutdown"), Some {| node_Out := [] |})]
           (Samples.in_app "Close")
           {| node_Out := [Samples.call (Samples.in_app "shutdown")] |} "" "" "").
  - discriminate.
  - intros fn' node' Hin _.
    repeat (apply elem_of_cons in Hin as [[= -> ->]|Hin]; [reflexivity|]).
    by apply elem_of_nil in Hin.
Defined.

(** **** What a run writes *)

Lemma writeResult_Done {R} (h : Host) (outputFile out : string) (result r : R) :
  writeResult h outputFile result = Done out r →
  out = outputFile ∧ r = result ∧
  mkdir_ok h outputFile = true ∧ write_ok h outputFile = true.
Proof.
  unfold writeResult.
  destruct (mkdir_ok h outputFile), (write_ok h outputFile); simpl; try done.
  by intros [= <- <-].
Qed.

Lemma bazel_find_target_source (pkgs : list PackageEntry) :
  (Bazel.find_target pkgs).1.2 = "" ∨ is_source_id (Bazel.find_target pkgs).1.2 = true.
Proof.
  induction pkgs as [|pkg pkgs IH]; [by left|]. cbn [Bazel.find_target].
  destruct (is_source_id (ID pkg)) eqn:Hid; [|done].
  destruct (0 <? length (GoFiles pkg)); [|done]. by right.
Qed.


Lemma fallback_nonempty (path fallback : string) :
  fallback ≠ "" → (if bool_decide (path = "") then fallback else path) ≠ "".
Proof. intros Hne. by case_bool_decide. Qed.

Lemma bazel_graph_counts g (id name path : string) :
  let r := Bazel.graph_result id name path g in
  Bazel.PackageID r = id ∧ Bazel.ImportPath r = path ∧ Bazel.Algorithm r = "VTA" ∧
  Bazel.TotalFuncs r = size (Bazel.CallGraph r) ∧
  Bazel.TotalFuncs r ≤ Bazel.TotalEdges r ∧
  (∀ caller (callees : list string),
     Bazel.CallGraph r !! caller = Some callees → callees ≠ []).
Proof.
  intros r. subst r. rewrite bazel_graph_result.
  cbn [Bazel.PackageID Bazel.ImportPath Bazel.Algorithm Bazel.TotalFuncs
       Bazel.CallGraph Bazel.TotalEdges].
  destruct (adjacency_bounds g) as (Hle1 & Hle2 & _).
  split_and!; try done; [lia|].
  by intros caller callees (? & ? & ? & ? & ? & ?)%lookup_callers.
Qed.


(** Whatever the packages file, the loader and the analysis give, a result
    that vta_analyzer_bazel.go writes goes to the path of its last
    argument and is well formed: the algorithm is [VTA], the import path
    is not empty, the package id is empty or a label of the main
    repository, [total_functions] is the number of keys of [call_graph]
    and at most [total_edges], and no caller is listed with an empty
    callee list. *)
Theorem bazel_written_result h (osArgs : list string) (out : string)
    (r : Bazel.CallGraphResult) :
  Bazel.main h osArgs = Done out r →
  osArgs !! 2 = Some out ∧ length osArgs = 3 ∧
  Bazel.Algorithm r = "VTA" ∧ Bazel.ImportPath r ≠ "" ∧
  (Bazel.PackageID r = "" ∨ is_source_id (Bazel.PackageID r) = true) ∧
  Bazel.TotalFuncs r = size (Bazel.CallGraph r) ∧
  Bazel.TotalFuncs r ≤ Bazel.TotalEdges r ∧
  (∀ caller (callees : list string),
     Bazel.CallGraph r !! caller = Some callees → callees ≠ []).
Proof.
  unfold Bazel.main.
  destruct osArgs as [|prog [|packagesFile [|outputFile [|extra rest]]]]; try done.
  destruct (read_packages_file h packagesFile) as [[response|]|]; try done.
  pose proof (bazel_find_target_source (Packages response)) as Hid.
  destruct (Bazel.find_target (Packages response)) as [[targetPackage targetID] targetName].
  cbn [fst snd] in Hid.
  pose proof (fallback_nonempty targetPackage "./..." ltac:(done)) as Hpath.
  set (path := if bool_decide (targetPackage = "") then "./..." else targetPackage) in *.
  assert (∀ result,
            Bazel.PackageID result = targetID → Bazel.ImportPath result = path →
            Bazel.Algorithm result = "VTA" →
            Bazel.TotalFuncs result = size (Bazel.CallGraph result) →
            Bazel.TotalFuncs result ≤ Bazel.TotalEdges result →
            (∀ caller (callees : list string),
               Bazel.CallGraph result !! caller = Some callees → callees ≠ []) →
            writeResult h outputFile result = Done out r →
            [prog; packagesFile; outputFile] !! 2 = Some out ∧
            length [prog; packagesFile; outputFile] = 3 ∧
            Bazel.Algorithm r = "VTA" ∧ Bazel.ImportPath r ≠ "" ∧
            (Bazel.PackageID r = "" ∨ is_source_id (Bazel.PackageID r) = true) ∧
            Bazel.TotalFuncs r = size (Bazel.CallGraph r) ∧
            Bazel.TotalFuncs r ≤ Bazel.TotalEdges r ∧
            (∀ caller (callees : list string),
               Bazel.CallGraph r !! caller = Some callees → callees ≠ [])) as Hwrite.
  { intros result Hrid Hrpath Halg Hsize Hle Hlists (-> & -> & _)%writeResult_Done.
    rewrite Hrid, Hrpath. by split_and!. }
  destruct (length (Bazel.load_packages h) =? 0).
  { by apply Hwrite. }
  destruct (length (Bazel.filterValidPackages (Bazel.load_packages h)) =? 0).
  { by apply Hwrite. }
  apply Hwrite; apply bazel_graph_counts.
Qed.

Lemma bazel_written_result_witness :
  ∃ r, Bazel.main Samples.host_mixed ["vta"; "packages.json"; "out.json"] =
         Done "out.json" r ∧
       Bazel.ImportPath r ≠ "" ∧ Bazel.TotalFuncs r ≤ Bazel.TotalEdges r.
Proof.
  eexists. split; [reflexivity|].
  destruct (bazel_written_result Samples.host_mixed ["vta"; "packages.json"; "out.json"]
              "out.json" _ eq_refl) as (_ & _ & _ & Hpath & _ & _ & Hle & _).
  split; [exact Hpath | exact Hle].
Defined.



(** **** Packages given to the loader *)






(** **** The two validity filters *)

(** The workspace script is the stricter of the two: every package it
    analyzes the Bazel analyzer would analyze too, both keep the loader's
    order, and filtering what the other has filtered changes nothing
    more. *)
Theorem workspace_filter_is_stricter (pkgs : list Package) :
  Workspace.valid_packages pkgs `sublist_of` Bazel.filterValidPackages pkgs ∧
  Bazel.filterValidPackages pkgs `sublist_of` pkgs ∧
  Workspace.valid_packages (Bazel.filterValidPackages pkgs) = Workspace.valid_packages pkgs ∧
  Bazel.filterValidPackages (Workspace.valid_packages pkgs) = Workspace.valid_packages pkgs.
Proof.
  assert (Workspace.valid_packages (Bazel.filterValidPackages pkgs) =
            Workspace.valid_packages pkgs) as Hcomp.
  { rewrite !valid_packages_filter, filterValidPackages_filter.
    apply list_filter_filter_l. intros pkg.
    destruct (hasTypes pkg), (hasSyntax pkg); done. }
  split_and!; [| |done|].
  - rewrite <- Hcomp, valid_packages_filter. apply sublist_filter.
  - rewrite filterValidPackages_filter. apply sublist_filter.
  - rewrite filterValidPackages_filter, valid_packages_filter.
    apply list_filter_filter_r. intros pkg.
    destruct (hasTypes pkg), (hasSyntax pkg); done.
Qed.

(** **** The target of a run *)

(** The package a run reports is the first package of the packages file
    whose id is a label of the main repository (and, for
    vta_analyzer_bazel.go, that lists Go files); without such a package
    the id, the name and the path are empty. *)
Theorem target_is_first_source_package (pkgs : list PackageEntry) :
  (∀ before e after,
     pkgs = before ++ e :: after →
     is_source_id (ID e) = true → GoFiles e ≠ [] →
     (∀ e', e' ∈ before → is_source_id (ID e') = false ∨ GoFiles e' = []) →
     Bazel.find_target pkgs = (PkgPath e, ID e, Name e)) ∧
  ((∀ e, e ∈ pkgs → is_source_id (ID e) = false ∨ GoFiles e = []) →
   Bazel.find_target pkgs = ("", "", "")) ∧
  (∀ before e after,
     pkgs = before ++ e :: after →
     is_source_id (ID e) = true →
     (∀ e', e' ∈ before → is_source_id (ID e') = false) →
     Workspace.find_target pkgs = (ID e, Name e, PkgPath e)) ∧
  ((∀ e, e ∈ pkgs → is_source_id (ID e) = false) →
   Workspace.find_target pkgs = ("", "", "")).
Proof.
  split_and!.
  - intros before e after -> Hid Hfiles Hbefore.
    induction before as [|e' before IH]; cbn [app Bazel.find_target].
    + rewrite Hid. by destruct (GoFiles e).
    + destruct (Hbefore e' (list_elem_of_here _ _)) as [-> | ->]; cbn [andb];
        [|rewrite andb_false_r];
        apply IH; intros e'' Hin; by apply Hbefore, list_elem_of_further.
  - induction pkgs as [|e pkgs IH]; intros Hnone; [done|]. cbn [Bazel.find_target].
    destruct (Hnone e (list_elem_of_here _ _)) as [-> | ->]; cbn [andb];
      [|rewrite andb_false_r];
      apply IH; intros e' Hin; by apply Hnone, list_elem_of_further.
  - intros before e after -> Hid Hbefore.
    induction before as [|e' before IH]; cbn [app Workspace.find_target].
    + by rewrite Hid.
    + rewrite (Hbefore e' (list_elem_of_here _ _)).
      apply IH. intros e'' Hin. by apply Hbefore, list_elem_of_further.
  - induction pkgs as [|e pkgs IH]; intros Hnone; [done|]. cbn [Workspace.find_target].
    rewrite (Hnone e (list_elem_of_here _ _)).
    apply IH. intros e' Hin. by apply Hnone, list_elem_of_further.
Qed.

Lemma target_is_first_source_package_witness :
  Bazel.find_target
    ({| ID := "@rules_go//go:tools"; Name := "tools"; PkgPath := "tools";
        GoFiles := ["t.go"] |} :: Packages Samples.response_main) =
    ("src/main", "@//src/main:main", "main").
Proof.
  destruct (target_is_first_source_package
              ({| ID := "@rules_go//go:tools"; Name := "tools"; PkgPath := "tools";
                  GoFiles := ["t.go"] |} :: Packages Samples.response_main))
    as (Hfirst & _).
  apply (Hfirst [{| ID := "@rules_go//go:tools"; Name := "tools"; PkgPath := "tools";
                    GoFiles := ["t.go"] |}]
           {| ID := "@//src/main:main"; Name := "main"; PkgPath := "src/main";
              GoFiles := ["main.go"] |} []);
    [reflexivity | reflexivity | discriminate |].
  intros e' Hin. apply list_elem_of_singleton in Hin as ->. by left.
Defined.

End CallGraphMoreFacts.

(* ===================================================================== *)
(** ** Further facts about fact-file naming                               *)
(* ===================================================================== *)

Section NamingMoreFacts.
Import Naming.

(** The two spellings of a label of the main repository, with one [@] and
    with two, give the same file name. *)
Theorem main_repo_label_forms_agree (p : string) :
  compute_package_version_name ("@@//" +:+ p) =
    compute_package_version_name ("@//" +:+ p).
Proof.
  unfold compute_package_version_name.
  assert (replace (replace ("@@//" +:+ p) "@//" "_") "@" "" =
          replace (replace ("@//" +:+ p) "@//" "_") "@" "") as ->; [|done].
  by destruct p.
Qed.

End NamingMoreFacts.

(* ===================================================================== *)
(** ** Facts about the name, version and import path of a target          *)
(* ===================================================================== *)

Section UtilsFacts.
Import Naming Utils.
#[local] Set Warnings "-clear-no-such-hyp".

Lemma prefix_empty (s : string) : String.prefix "" s = true.
Proof. by destruct s. Qed.

Lemma prefix_append (p z : string) : String.prefix p (p +:+ z) = true.
Proof.
  induction p as [|a p IH]; simpl; [apply prefix_empty|].
  by destruct (Ascii.ascii_dec a a).
Qed.

Lemma startswith_inv (s p : string) :
  startswith s p = true → ∃ rest, s = p +:+ rest.
Proof.
  unfold startswith. revert s. induction p as [|a p IH]; intros s Hp.
  - by exists s.
  - destruct s as [|b s]; [done|]. simpl in Hp.
    destruct (Ascii.ascii_dec a b) as [->|]; [|done].
    destruct (IH s Hp) as [rest ->]. by exists rest.
Qed.

Lemma replace_from_skip (old new p z : string) :
  replace_from old new (String.length p) (p +:+ z) = replace_from old new 0 z.
Proof.
  induction p as [|a p IH]; [|done].
  destruct z; [done|]. reflexivity.
Qed.

Lemma replace_at_prefix (old new z : string) :
  old ≠ "" → replace (old +:+ z) old new = new +:+ replace z old new.
Proof.
  intros Hne. destruct old as [|a old]; [done|]. unfold replace.
  change (String a old +:+ z) with (String a (old +:+ z)).
  cbn [replace_from].
  change (String a (old +:+ z)) with (String a old +:+ z).
  rewrite prefix_append. f_equal.
  change (String.length (String a old) - 1) with (String.length old - 0).
  rewrite Nat.sub_0_r. apply replace_from_skip.
Qed.

Lemma truthy_Some (v : option string) :
  truthy v = true → ∃ value, v = Some value ∧ value ≠ "".
Proof.
  destruct v as [value|]; [|done]. simpl. intros Hv. exists value.
  split; [done|]. by case_bool_decide.
Qed.

Lemma first_set_cons (attrs : gmap string string) (n : string) (names : list string) :
  first_set attrs (n :: names) =
    if truthy (attrs !! n) then attrs !! n else first_set attrs names.
Proof.
  unfold first_set. cbn [omap list_omap]. destruct (attrs !! n) as [value|]; [|done].
  simpl. by case_bool_decide.
Qed.

Lemma scan_version_attrs_first_set (attrs : gmap string string) (names : list string) :
  scan_version_attrs attrs names = first_set attrs names.
Proof.
  induction names as [|n names IH]; [done|].
  rewrite first_set_cons. cbn [scan_version_attrs]. rewrite IH.
  destruct (attrs !! n) as [value|]; [|done]. simpl. by case_bool_decide.
Qed.

(** What [_get_external_go_target_details] returns for a label that
    starts with [@]. *)
Lemma external_details (ctx : Ctx) :
  startswith (label ctx) "@" = true →
  _get_external_go_target_details ctx =
    let import_path :=
      if truthy (rule_attr ctx !! "importpath")
      then default "" (rule_attr ctx !! "importpath") else "" in
    match first_set (rule_attr ctx) ["version"; "tag"; "ref"; "_version"] with
    | Some version => (import_path, version, import_path)
    | None =>
        (if bool_decide (import_path = "") then
           if startswith (repo_name_of (label ctx)) "com_github_"
           then replace (replace (repo_name_of (label ctx)) "_" "/")
                  "com/github/" "github.com/"
           else if startswith (repo_name_of (label ctx)) "org_golang_x_"
           then replace (replace (repo_name_of (label ctx)) "_" "/")
                  "org/golang/x/" "golang.org/x/"
           else replace (repo_name_of (label ctx)) "_" "/"
         else import_path,
         "external", import_path)
    end.
Proof.
  intros Hat. unfold _get_external_go_target_details. rewrite Hat. cbn [negb].
  rewrite scan_version_attrs_first_set, !first_set_cons.
  unfold get_go_version_from_query, repo_name_of.
  destruct (truthy (rule_attr ctx !! "importpath"));
    destruct (truthy (rule_attr ctx !! "version")) eqn:Hv;
    [by destruct (rule_attr ctx !! "version") | | by destruct (rule_attr ctx !! "version") |];
    (destruct (truthy (rule_attr ctx !! "tag")) eqn:Ht;
       [by destruct (rule_attr ctx !! "tag")|]);
    (destruct (truthy (rule_attr ctx !! "ref")) eqn:Hr;
       [by destruct (rule_attr ctx !! "ref")|]);
    done.
Qed.

(** The version of an external target is never empty: it is the first of
    the rule attributes [version], [tag], [ref] and [_version] that is set
    and not empty, and [external] when there is none; a label that does
    not start with [@] gets an empty name, the version [external] and an
    empty import path whatever its attributes are. *)
Theorem external_version_precedence (ctx : Ctx) :
  (_get_external_go_target_details ctx).1.2 ≠ "" ∧
  (startswith (label ctx) "@" = false →
   _get_external_go_target_details ctx = ("", "external", "")) ∧
  (startswith (label ctx) "@" = true →
   (_get_external_go_target_details ctx).1.2 =
     default "external"
       (first_set (rule_attr ctx) ["version"; "tag"; "ref"; "_version"])).
Proof.
  assert (∀ names v, first_set (rule_attr ctx) names = Some v → v ≠ "") as Hset.
  { intros names. induction names as [|n names IH]; intros v; [done|].
    rewrite first_set_cons. destruct (truthy (rule_attr ctx !! n)) eqn:Hn; [|apply IH].
    apply truthy_Some in Hn as (value & -> & Hne). by intros [= <-]. }
  destruct (startswith (label ctx) "@") eqn:Hat.
  - rewrite external_details by done. cbn zeta.
    destruct (first_set (rule_attr ctx) ["version"; "tag"; "ref"; "_version"])
      as [version|] eqn:Hfirst; simpl; split_and!; try done.
    by apply (Hset _ _ Hfirst).
  - unfold _get_external_go_target_details. rewrite Hat. simpl. by split_and!.
Qed.

Lemma external_version_precedence_witness :
  (_get_external_go_target_details ctx_inner_version).1.2 = "v0.3.0" ∧
  _get_external_go_target_details
    {| label := "//src/main:main"; rule_attr := {[ "version" := "v1" ]}; attr := ∅ |} =
    ("", "external", "").
Proof.
  destruct (external_version_precedence ctx_inner_version) as (_ & _ & Hv).
  destruct (external_version_precedence
              {| label := "//src/main:main"; rule_attr := {[ "version" := "v1" ]};
                 attr := ∅ |}) as (_ & Hplain & _).
  split; [by rewrite Hv | by apply Hplain].
Defined.

(** The name of an external target is its import path attribute when that
    is set.  Without it the name is empty whenever a version attribute is
    set, and is derived from the repository name only when none is: the
    derived name holds no underscore, and starts with [github.com/] for a
    repository [com_github_...] and with [golang.org/x/] for a repository
    [org_golang_x_...]. *)
Theorem external_name (ctx : Ctx) :
  startswith (label ctx) "@" = true →
  (∀ path, rule_attr ctx !! "importpath" = Some path → path ≠ "" →
     (_get_external_go_target_details ctx).1.1 = path ∧
     (_get_external_go_target_details ctx).2 = path) ∧
  (truthy (rule_attr ctx !! "importpath") = false →
     (_get_external_go_target_details ctx).2 = "" ∧
     (is_Some (first_set (rule_attr ctx) ["version"; "tag"; "ref"; "_version"]) →
      (_get_external_go_target_details ctx).1.1 = "") ∧
     (first_set (rule_attr ctx) ["version"; "tag"; "ref"; "_version"] = None →
      ¬ occurs "_"%char (_get_external_go_target_details ctx).1.1 ∧
      (startswith (repo_name_of (label ctx)) "com_github_" = true →
       startswith (_get_external_go_target_details ctx).1.1 "github.com/" = true) ∧
      (startswith (repo_name_of (label ctx)) "org_golang_x_" = true →
       startswith (_get_external_go_target_details ctx).1.1 "golang.org/x/" = true))).
Proof.
  intros Hat. rewrite external_details by done. cbn zeta. split.
  - intros path Hpath Hne. rewrite Hpath. cbn [truthy default].
    rewrite bool_decide_true by done.
    destruct (first_set (rule_attr ctx) ["version"; "tag"; "ref"; "_version"]);
      cbn [fst snd]; [done|].
    by rewrite bool_decide_false.
  - intros ->. split_and!.
    + by destruct (first_set (rule_attr ctx) ["version"; "tag"; "ref"; "_version"]).
    + by intros [version ->].
    + intros ->. cbn [fst snd]. rewrite bool_decide_true by done.
      set (repo := repo_name_of (label ctx)).
      assert (¬ occurs "_"%char (replace repo "_" "/")) as Hclean.
      { apply replace_char_gone. simpl. intros [?|[]]. done. }
      split_and!.
      * destruct (startswith repo "com_github_"); [|destruct (startswith repo "org_golang_x_")];
          [| |done].
        -- intros [?|Hnew]%occurs_replace; [done|]. simpl in Hnew. naive_solver.
        -- intros [?|Hnew]%occurs_replace; [done|]. simpl in Hnew. naive_solver.
      * intros Hgh. rewrite Hgh. apply startswith_inv in Hgh as [rest Hrest].
        rewrite Hrest.
        assert (replace ("com_github_" +:+ rest) "_" "/" =
                  "com/github/" +:+ replace rest "_" "/") as -> by (by destruct rest).
        rewrite replace_at_prefix by done. apply prefix_append.
      * intros Hx. destruct (startswith repo "com_github_") eqn:Hgh.
        { apply startswith_inv in Hgh as [rest Hrest].
          apply startswith_inv in Hx as [rest' Hrest']. rewrite Hrest in Hrest'. done. }
        rewrite Hx. apply startswith_inv in Hx as [rest Hrest].
        rewrite Hrest.
        assert (replace ("org_golang_x_" +:+ rest) "_" "/" =
                  "org/golang/x/" +:+ replace rest "_" "/") as -> by (by destruct rest).
        rewrite replace_at_prefix by done. apply prefix_append.
Qed.

Lemma external_name_witness :
  (_get_external_go_target_details ctx_testify).1.1 = "github.com/stretchr/testify" ∧
  (_get_external_go_target_details ctx_tagged).1.1 = "" ∧
  startswith (_get_external_go_target_details ctx_testify).1.1 "github.com/" = true.
Proof.
  split; [reflexivity|]. split.
  - destruct (external_name ctx_tagged eq_refl) as (_ & Hnone).
    destruct (Hnone eq_refl) as (_ & Hempty & _). apply Hempty. by eexists.
  - destruct (external_name ctx_testify eq_refl) as (_ & Hnone).
    destruct (Hnone eq_refl) as (_ & _ & Hderived).
    destruct (Hderived eq_refl) as (_ & Hgh & _). by apply Hgh.
Defined.

(** **** Targets of the main repository *)

Lemma occurs_dec (c : Ascii.ascii) (s : string) : occurs c s ∨ ¬ occurs c s.
Proof.
  induction s as [|a s [IH|IH]]; simpl; [tauto | tauto |].
  destruct (Ascii.ascii_dec a c); tauto.
Qed.

Lemma split_from_nonempty (sep : string) (s : string) :
  ∀ skip, split_from sep skip s ≠ [].
Proof.
  induction s as [|c s IH]; intros skip; cbn [split_from]; [done|].
  destruct skip; [|apply IH].
  destruct (String.prefix sep (String c s)); [done|].
  by destruct (split_from sep 0 s).
Qed.

Lemma last_cons_nonempty {A} (x d : A) (l : list A) :
  l ≠ [] → List.last (x :: l) d = List.last l d.
Proof. by destruct l. Qed.

(** Splitting at colons: the last piece holds no colon and is what
    follows the last colon of the string. *)
Lemma split_colon (s : string) :
  ¬ occurs ":"%char (List.last (split s ":") "") ∧
  (¬ occurs ":"%char s → split s ":" = [s]) ∧
  (occurs ":"%char s →
   1 < length (split s ":") ∧
   ∃ before, s = before +:+ ":" +:+ List.last (split s ":") "").
Proof.
  unfold split. induction s as [|c s (IHlast & IHnone & IHsome)].
  - simpl. tauto.
  - cbn [split_from String.prefix occurs].
    pose proof (split_from_nonempty ":" s 0) as Hne.
    destruct (Ascii.ascii_dec ":" c) as [<-|Hc].
    + rewrite prefix_empty. cbn [String.length Nat.sub].
      rewrite last_cons_nonempty by done. split_and!; [done | tauto |].
      intros _. split.
      * destruct (split_from ":" 0 s); [done|]. simpl. lia.
      * destruct (occurs_dec ":" s) as [Hs|Hs].
        -- destruct (IHsome Hs) as (_ & before & Hbefore).
           exists (String ":" before).
           change (String ":" s = String ":" (before +:+ ":" +:+
                     List.last (split_from ":" 0 s) "")).
           f_equal. exact Hbefore.
        -- rewrite (IHnone Hs). by exists "".
    + destruct (split_from ":" 0 s) as [|piece pieces] eqn:Hsplit; [done|].
      split_and!.
      * destruct pieces as [|piece' pieces]; [|done].
        simpl in *. intros [?|?]; [congruence | tauto].
      * intros Hs. assert (¬ occurs ":"%char s) as Hs' by tauto.
        apply IHnone in Hs'. by injection Hs' as -> ->.
      * intros [?|Hs]; [congruence|]. destruct (IHsome Hs) as (Hlen & before & Hbefore).
        split; [done|]. destruct pieces as [|piece' pieces]; [simpl in Hlen; lia|].
        exists (String c before).
        change (String c s = String c (before +:+ ":" +:+
                  List.last (piece :: piece' :: pieces) "")).
        f_equal. exact Hbefore.
Qed.

(** For a label of the main repository the exported function gives, as
    name, what follows the last colon of the label (or the rule's [name]
    attribute when the label has no colon); as version, [internal] unless
    the aspect's [ref] attribute is set; as import path, the rule's
    [importpath] attribute. *)
Theorem internal_target_details (ctx : Ctx) :
  startswith (label ctx) "@//" = true ∨ startswith (label ctx) "@@//" = true →
  (occurs ":"%char (label ctx) →
   ¬ occurs ":"%char (_get_go_name_version_and_import_path ctx).1.1 ∧
   ∃ before, label ctx =
               before +:+ ":" +:+ (_get_go_name_version_and_import_path ctx).1.1) ∧
  (¬ occurs ":"%char (label ctx) →
   (_get_go_name_version_and_import_path ctx).1.1 = default "" (rule_attr ctx !! "name")) ∧
  (truthy (attr ctx !! "ref") = false →
   (_get_go_name_version_and_import_path ctx).1.2 = "internal") ∧
  (∀ ref, attr ctx !! "ref" = Some ref → ref ≠ "" →
   (_get_go_name_version_and_import_path ctx).1.2 = ref) ∧
  (_get_go_name_version_and_import_path ctx).2 = default "" (rule_attr ctx !! "importpath").
Proof.
  intros Hinternal.
  assert (_get_go_name_version_and_import_path ctx = _get_internal_go_target_details ctx)
    as ->.
  { unfold _get_go_name_version_and_import_path.
    by destruct Hinternal as [-> | ->]; [|rewrite orb_true_r]. }
  unfold _get_internal_go_target_details. cbn [fst snd].
  destruct (split_colon (label ctx)) as (Hlast & Hnone & Hsome).
  split_and!.
  - intros Hcolon. destruct (Hsome Hcolon) as (Hlen & before & Hbefore).
    apply Nat.ltb_lt in Hlen. rewrite Hlen. split; [done|]. by exists before.
  - intros Hcolon. by rewrite (Hnone Hcolon).
  - by intros ->.
  - intros ref Href Hne. rewrite Href. simpl. by rewrite bool_decide_true.
  - done.
Qed.

Lemma internal_target_details_witness :
  _get_go_name_version_and_import_path ctx_main =
    ("main", "internal", "example.com/app/src/main") ∧
  ¬ occurs ":"%char (_get_go_name_version_and_import_path ctx_main).1.1.
Proof.
  split; [reflexivity|].
  destruct (internal_target_details ctx_main (or_introl eq_refl)) as (Hname & _).
  apply Hname. simpl. tauto.
Defined.

(** Whatever the label and the attributes, the version the exported
    function returns is never empty; and a label that does not start with
    [@] is handled as an external one and gets an empty name, the version
    [external] and an empty import path. *)
Theorem version_never_empty (ctx : Ctx) :
  (_get_go_name_version_and_import_path ctx).1.2 ≠ "" ∧
  (startswith (label ctx) "@" = false →
   _get_go_name_version_and_import_path ctx = ("", "external", "")).
Proof.
  unfold _get_go_name_version_and_import_path.
  destruct (startswith (label ctx) "@//" || startswith (label ctx) "@@//") eqn:Hint;
    cbn [negb].
  - split.
    + unfold _get_internal_go_target_details. cbn [fst snd].
      destruct (truthy (attr ctx !! "ref")) eqn:Href; [|done].
      by apply truthy_Some in Href as (ref & -> & Hne).
    + intros Hat. apply orb_true_iff in Hint as [Hint|Hint];
        apply startswith_inv in Hint as [rest Hrest]; by rewrite Hrest in Hat.
  - split.
    + assert (∀ names v, first_set (rule_attr ctx) names = Some v → v ≠ "") as Hset.
      { intros names. induction names as [|n names IH]; intros v; [done|].
        rewrite first_set_cons.
        destruct (truthy (rule_attr ctx !! n)) eqn:Hn; [|apply IH].
        apply truthy_Some in Hn as (value & -> & Hne). by intros [= <-]. }
      destruct (startswith (label ctx) "@") eqn:Hat.
      * rewrite external_details by done. cbn zeta.
        destruct (first_set (rule_attr ctx) ["version"; "tag"; "ref"; "_version"])
          as [version|] eqn:Hfirst; [|done].
        by apply (Hset _ _ Hfirst).
      * unfold _get_external_go_target_details. by rewrite Hat.
    + intros Hat. unfold _get_external_go_target_details. by rewrite Hat.
Qed.

Lemma version_never_empty_witness :
  _get_go_name_version_and_import_path
    {| label := "//src/main:main"; rule_attr := {[ "version" := "v1" ]}; attr := ∅ |} =
    ("", "external", "").
Proof.
  by apply (version_never_empty
              {| label := "//src/main:main"; rule_attr := {[ "version" := "v1" ]};
                 attr := ∅ |}).
Defined.

End UtilsFacts.

(* ===================================================================== *)
(** ** Facts about the environment handed to the Go toolchain            *)
(* ===================================================================== *)

Section GoEnvFacts.
Import GoEnv.

Implicit Types (h : EnvHost) (env : list string).

Lemma homeSet_app env1 env2 : homeSet (env1 ++ env2) = homeSet env1 || homeSet env2.
Proof.
  induction env1 as [|e env1 IH]; [done|]. cbn [app homeSet].
  by destruct (String.prefix "HOME=" e).
Qed.

Lemma homeSet_entries env : homeSet env = false ↔ entries_of "HOME=" env = [].
Proof.
  unfold entries_of. induction env as [|e env IH]; [done|]. cbn [homeSet].
  destruct (String.prefix "HOME=" e) eqn:He.
  - by rewrite filter_cons_True.
  - rewrite filter_cons_False; [done|]. by rewrite He.
Qed.

Lemma added_app h (more : list string) : added h (os_Environ h ++ more) = more.
Proof. unfold added. by rewrite drop_app_length. Qed.

Lemma entries_of_app (name : string) env1 env2 :
  entries_of name (env1 ++ env2) = entries_of name env1 ++ entries_of name env2.
Proof. apply filter_app. Qed.

Lemma entries_of_same (name value : string) env :
  entries_of name ((name +:+ value) :: env) = (name +:+ value) :: entries_of name env.
Proof. unfold entries_of. rewrite filter_cons_True; [done|]. apply prefix_append. Qed.

(** The entries the build of vta_analyzer_simple.go adds before it looks
    for [HOME]: none of them is a [HOME] entry, and exactly one is a
    [GOCACHE] entry. *)
Lemma dynamic_settings h :
  ∃ settings cache,
    buildDynamicGoEnvironment h =
      os_Environ h ++ settings ++ ["GO111MODULE=on"] ++
      (if homeSet (os_Environ h) then []
       else ["HOME=" +:+ default (os_TempDir h) (os_UserHomeDir h)]) ∧
    homeSet settings = false ∧
    entries_of "GOCACHE=" settings = ["GOCACHE=" +:+ cache] ∧
    ((go_env h "GOCACHE" = Some cache ∧ cache ≠ "" ∧ cache ≠ "off") ∨
     (cache = filepath_Join h (os_TempDir h) "vta-gocache" ∧
      (go_env h "GOCACHE" = None ∨ go_env h "GOCACHE" = Some "" ∨
       go_env h "GOCACHE" = Some "off"))).
Proof.
  unfold buildDynamicGoEnvironment.
  set (root := match go_env h "GOROOT" with
               | Some goroot => ["GOROOT=" +:+ goroot] | None => [] end).
  set (path := match go_env h "GOPATH" with
               | Some gopath => ["GOPATH=" +:+ gopath] | None => [] end).
  set (goos := match go_env h "GOOS" with
               | Some goos => ["GOOS=" +:+ goos] | None => [] end).
  set (arch := match go_env h "GOARCH" with
               | Some goarch => ["GOARCH=" +:+ goarch] | None => [] end).
  set (modc := match go_env h "GOMODCACHE" with
               | Some modCache =>
                   if bool_decide (modCache ≠ "") then ["GOMODCACHE=" +:+ modCache] else []
               | None => ["GOMODCACHE=" +:+ filepath_Join h (os_TempDir h) "gomodcache"]
               end).
  set (cache := match go_env h "GOCACHE" with
                | Some cache =>
                    if bool_decide (cache ≠ "") && bool_decide (cache ≠ "off")
                    then cache else filepath_Join h (os_TempDir h) "vta-gocache"
                | None => filepath_Join h (os_TempDir h) "vta-gocache"
                end).
  exists (root ++ path ++ goos ++ arch ++ modc ++ ["GOCACHE=" +:+ cache]), cache.
  assert (homeSet root = false ∧ entries_of "GOCACHE=" root = []) as [Hroot Hroot'].
  { subst root. by destruct (go_env h "GOROOT"). }
  assert (homeSet path = false ∧ entries_of "GOCACHE=" path = []) as [Hpath Hpath'].
  { subst path. by destruct (go_env h "GOPATH"). }
  assert (homeSet goos = false ∧ entries_of "GOCACHE=" goos = []) as [Hgoos Hgoos'].
  { subst goos. by destruct (go_env h "GOOS"). }
  assert (homeSet arch = false ∧ entries_of "GOCACHE=" arch = []) as [Harch Harch'].
  { subst arch. by destruct (go_env h "GOARCH"). }
  assert (homeSet modc = false ∧ entries_of "GOCACHE=" modc = []) as [Hmodc Hmodc'].
  { subst modc. destruct (go_env h "GOMODCACHE"); [|done]. by case_bool_decide. }
  assert (homeSet (root ++ path ++ goos ++ arch ++ modc ++ ["GOCACHE=" +:+ cache]) = false)
    as Hsettings.
  { by rewrite !homeSet_app, Hroot, Hpath, Hgoos, Harch, Hmodc. }
  assert (entries_of "GOCACHE=" (root ++ path ++ goos ++ arch ++ modc ++
                                   ["GOCACHE=" +:+ cache]) = ["GOCACHE=" +:+ cache])
    as Hentries.
  { rewrite !entries_of_app, Hroot', Hpath', Hgoos', Harch', Hmodc'.
    by rewrite entries_of_same. }
  split_and!; [|done|done|].
  - assert (∀ env0,
      (let env := match go_env h "GOROOT" with
                  | Some goroot => env0 ++ ["GOROOT=" +:+ goroot] | None => env0 end in
       let env := match go_env h "GOPATH" with
                  | Some gopath => env ++ ["GOPATH=" +:+ gopath] | None => env end in
       let env := match go_env h "GOOS" with
                  | Some goos => env ++ ["GOOS=" +:+ goos] | None => env end in
       let env := match go_env h "GOARCH" with
                  | Some goarch => env ++ ["GOARCH=" +:+ goarch] | None => env end in
       let env := match go_env h "GOMODCACHE" with
                  | Some modCache =>
                      if bool_decide (modCache ≠ "")
                      then env ++ ["GOMODCACHE=" +:+ modCache] else env
                  | None =>
                      env ++ ["GOMODCACHE=" +:+ filepath_Join h (os_TempDir h) "gomodcache"]
                  end in
       let env := match go_env h "GOCACHE" with
                  | Some cache =>
                      if bool_decide (cache ≠ "") && bool_decide (cache ≠ "off")
                      then env ++ ["GOCACHE=" +:+ cache]
                      else env ++ ["GOCACHE=" +:+
                                     filepath_Join h (os_TempDir h) "vta-gocache"]
                  | None =>
                      env ++ ["GOCACHE=" +:+ filepath_Join h (os_TempDir h) "vta-gocache"]
                  end in
       env ++ ["GO111MODULE=on"]) =
      env0 ++ (root ++ path ++ goos ++ arch ++ modc ++ ["GOCACHE=" +:+ cache]) ++
        ["GO111MODULE=on"]) as Hbuild.
    { intros env0. subst root path goos arch modc cache. cbn zeta.
      destruct (go_env h "GOROOT"), (go_env h "GOPATH"), (go_env h "GOOS"),
        (go_env h "GOARCH"), (go_env h "GOMODCACHE") as [modCache|],
        (go_env h "GOCACHE") as [cache|];
        try destruct (bool_decide (modCache ≠ ""));
        try destruct (bool_decide (cache ≠ "") && bool_decide (cache ≠ "off"));
        by rewrite <- ?app_assoc. }
    cbn zeta in Hbuild. rewrite (Hbuild (os_Environ h)). clear Hbuild.
    revert Hsettings.
    generalize (root ++ path ++ goos ++ arch ++ modc ++ ["GOCACHE=" +:+ cache]).
    intros settings Hsettings.
    rewrite !homeSet_app, Hsettings. cbn [homeSet String.prefix orb].
    rewrite !orb_false_r.
    destruct (homeSet (os_Environ h)); cbn [negb].
    + by rewrite <- ?app_assoc.
    + destruct (os_UserHomeDir h); by rewrite <- ?app_assoc.
  - subst cache. destruct (go_env h "GOCACHE") as [cache|]; [|right; tauto].
    repeat case_bool_decide; subst; simpl; tauto.
Qed.

(** Each of the two workspace wrappers hands the Go toolchain the
    inherited environment, in its order, followed by its own entries; the
    result always has a [HOME] entry; and a [HOME] entry is added, as the
    last entry, only when none is inherited. *)
Theorem home_always_set h :
  (os_Environ h `prefix_of` buildDynamicGoEnvironment h ∧
   homeSet (buildDynamicGoEnvironment h) = true ∧
   "GO111MODULE=on" ∈ added h (buildDynamicGoEnvironment h) ∧
   entries_of "HOME=" (added h (buildDynamicGoEnvironment h)) =
     if homeSet (os_Environ h) then []
     else ["HOME=" +:+ default (os_TempDir h) (os_UserHomeDir h)]) ∧
  (os_Environ h `prefix_of` legacy_environment h ∧
   homeSet (legacy_environment h) = true ∧
   "GO111MODULE=on" ∈ added h (legacy_environment h) ∧
   entries_of "HOME=" (added h (legacy_environment h)) =
     if homeSet (os_Environ h) then [] else ["HOME=" +:+ os_TempDir h]).
Proof.
  split.
  - destruct (dynamic_settings h) as (settings & cache & -> & Hsettings & _).
    rewrite added_app. split_and!.
    + by eexists.
    + rewrite !homeSet_app, Hsettings. cbn [homeSet String.prefix orb].
      destruct (homeSet (os_Environ h)) eqn:Hhome; [done|].
      cbn [homeSet]. by rewrite prefix_append, !orb_true_r.
    + apply elem_of_app. right. apply list_elem_of_here.
    + rewrite !entries_of_app. apply homeSet_entries in Hsettings as ->.
      destruct (homeSet (os_Environ h)); [done|].
      by rewrite (entries_of_same "HOME=").
  - unfold legacy_environment. rewrite !homeSet_app. cbn [homeSet String.prefix orb].
    rewrite !orb_false_r.
    destruct (homeSet (os_Environ h)) eqn:Hhome; cbn [negb];
      rewrite <- !app_assoc, added_app; split_and!.
    + by eexists.
    + by rewrite homeSet_app, Hhome.
    + apply list_elem_of_here.
    + done.
    + by eexists.
    + rewrite !homeSet_app. cbn [homeSet]. by rewrite prefix_append, !orb_true_r.
    + apply list_elem_of_here.
    + cbn [app].
      change (entries_of "HOME=" ?l) with
        (entries_of "HOME=" (["GO111MODULE=on";
           "GOCACHE=" +:+ filepath_Join h (os_TempDir h) "gocache";
           "GOMODCACHE=" +:+ filepath_Join h (os_TempDir h) "gomodcache"] ++
           ["HOME=" +:+ os_TempDir h])).
      rewrite entries_of_app, (entries_of_same "HOME="). done.
Qed.

(** The build of vta_analyzer_simple.go adds exactly one [GOCACHE] entry:
    the value [go env GOCACHE] reports when that is neither empty nor
    [off], and else a directory under the temporary directory; the value
    [off] of a disabled cache is never passed on. *)
Theorem cache_never_disabled h :
  ∃ cache,
    entries_of "GOCACHE=" (added h (buildDynamicGoEnvironment h)) =
      ["GOCACHE=" +:+ cache] ∧
    ((go_env h "GOCACHE" = Some cache ∧ cache ≠ "" ∧ cache ≠ "off") ∨
     (cache = filepath_Join h (os_TempDir h) "vta-gocache" ∧
      (go_env h "GOCACHE" = None ∨ go_env h "GOCACHE" = Some "" ∨
       go_env h "GOCACHE" = Some "off"))).
Proof.
  destruct (dynamic_settings h) as (settings & cache & -> & _ & Hcache & Hvalue).
  exists cache. split; [|done].
  rewrite added_app, !entries_of_app, Hcache.
  by destruct (homeSet (os_Environ h)).
Qed.

Example sandbox_environment :
  buildDynamicGoEnvironment host_sandbox =
    ["PATH=/usr/bin"; "GOMODCACHE=/tmp/gomodcache"; "GOCACHE=/tmp/vta-gocache";
     "GO111MODULE=on"; "HOME=/tmp"].
Proof. reflexivity. Qed.

End GoEnvFacts.
